(** * The backlog of the QIBFT consensus core

    A shallow embedding of [consensus/qibft/core/backlog.go]: the
    admissibility check [checkMessage], the priority key [toPriority], the two
    insertion paths [storeQBFTBacklog] and [storeBacklog], and the drain
    [processBacklog], followed by the properties the specification states
    about them.

    Conventions of the embedding.
    - A [*big.Int] is an [option Z] ([None] is the nil pointer); a [uint64] is
      a [Z] whose wrap-around modulo [2^64] is written out.
    - A [float32] priority is produced only by converting a [uint64]; every
      such value is an integer, so a priority is the [Z] it denotes (negative
      zero and zero compare equal in Go, and are both [0] here).
    - [error] results are [option error], [None] being Go's [nil].
    - A run-time panic (nil dereference) is the [None] of an [option] result.
    - The mutex [backlogsMu] only serialises the three entry points; each is
      modelled as one atomic function on the [core] record. *)

From Stdlib Require Import ZArith Lia.
From stdpp Require Import gmap list sorting.

Local Open Scope Z_scope.

(** ** Views *)

(** [type View struct { Round *big.Int; Sequence *big.Int }]. *)
Record View := { Sequence : option Z; Round : option Z }.

(** The value of [var view View]: both pointers nil. *)
Definition zeroView : View := {| Sequence := None; Round := None |}.

(** A view both of whose numbers are present (what line 39 lets through). *)
Definition mkView (s r : Z) : View := {| Sequence := Some s; Round := Some r |}.

Definition fields (v : View) : option (Z * Z) :=
  match Sequence v, Round v with
  | Some s, Some r => Some (s, r)
  | _, _ => None
  end.

(** [Cmp] of two [big.Int] numbers: -1, 0 or +1. *)
Definition bigCmp (x y : Z) : Z :=
  match x ?= y with Lt => -1 | Eq => 0 | Gt => 1 end.

(** Modelled from the spec: [View.Cmp] is declared with the [View] type,
    outside backlog.go. "Total order: compare sequence first, then round. Two
    views are equal iff both fields equal." It is given here on the numbers of
    two views whose fields are not nil. *)
Definition Cmp (v y : Z * Z) : Z :=
  if negb (bigCmp v.1 y.1 =? 0) then bigCmp v.1 y.1
  else if negb (bigCmp v.2 y.2 =? 0) then bigCmp v.2 y.2
  else 0.

(** The strict order on views that the specification calls "the View total
    order": sequence first, then round. *)
Definition viewLt (v y : Z * Z) : Prop :=
  v.1 < y.1 \/ (v.1 = y.1 /\ v.2 < y.2).

(** ** Message codes, states and errors *)

(** The four message codes are [uint64] constants declared outside
    backlog.go; they are taken as parameters. *)
Class MsgCodes := {
  msgPreprepare : Z;
  msgPrepare : Z;
  msgCommit : Z;
  msgRoundChange : Z
}.

(** What backlog.go relies on about the codes: the comments of lines 62-86
    rank pre-prepare below prepare below commit, and the keys of the
    [msgPriority] literal and the [case] labels of the switches are distinct
    constants. *)
Class MsgCodesRanked `{MsgCodes} : Prop := {
  preprepare_lt_prepare : msgPreprepare < msgPrepare;
  prepare_lt_commit : msgPrepare < msgCommit;
  roundchange_ne_preprepare : msgRoundChange <> msgPreprepare;
  roundchange_ne_prepare : msgRoundChange <> msgPrepare;
  roundchange_ne_commit : msgRoundChange <> msgCommit
}.

(** The states of the per-view state machine that [checkMessage] switches
    on. The [return nil] of line 88 is reached by none of them. *)
Inductive State :=
  | StateAcceptRequest
  | StatePreprepared
  | StatePrepared
  | StateCommitted.

Inductive error :=
  | errInvalidMessage
  | errFutureMessage
  | errOldMessage.

Global Instance error_eq_dec : EqDecision error.
Proof. solve_decision. Defined.

(** ** Messages *)

Abbreviation Address := N.

(** [istanbul.Validator]: an interface whose [Address()] is all the backlog
    uses. *)
Record Validator := { valAddress : Address }.

(** The legacy [*message]: its code and its undecoded payload. *)
Record message := { Code : Z; Msg : list Byte.byte }.

(** The new-style [QBFTMessage] interface, as the values its methods return. *)
Record QBFTMessage := { qbftCode : Z; qbftView : View; qbftSource : Address }.

(** What a queue holds ([interface{}] in Go): one of the two representations. *)
Inductive item :=
  | QBFT (msg : QBFTMessage)
  | Legacy (msg : message).

(** [msg.Decode(&p)] followed by [p.View], for the three payload types.
    [None] is a decode error. The decoders are external to backlog.go. *)
Class Decoder := {
  decodePreprepare : list Byte.byte -> option View;
  decodeRoundChange : list Byte.byte -> option View;
  decodeSubject : list Byte.byte -> option View
}.

Record backlogEvent := { src : Validator; msg : item }.

(** ** The priority queue

    [gopkg.in/karalabe/cookiejar.v2/collections/prque] is a library outside
    the repository: a heap of (value, [float32] priority) pairs whose [Pop]
    removes and returns a pair of greatest priority. The model keeps the
    pairs in a list. Which of several pairs of equal greatest priority [Pop]
    returns depends on the layout of the heap; the model leaves that choice to
    a parameter [tie], so that nothing proved below depends on it. *)
Module prque.

Class TieBreak (A : Type) := tie : list (A * Z) -> nat.

Section Queue.
Context {A : Type} `{TieBreak A}.

Definition New : list (A * Z) := [].

Definition Push (q : list (A * Z)) (data : A) (priority : Z) : list (A * Z) :=
  q ++ [(data, priority)].

Definition Empty (q : list (A * Z)) : bool :=
  match q with [] => true | _ :: _ => false end.

(** No pair of [q] has a priority above that of [e]. *)
Definition top (q : list (A * Z)) (e : A * Z) : Prop :=
  Forall (fun e' => e'.2 <= e.2) q.

Global Instance top_dec q e : Decision (top q e).
Proof. unfold top. apply _. Defined.

(** The pair [Pop] removes when [tie] does not point at a greatest one. *)
Definition popFirst (q : list (A * Z)) : option (A * Z * list (A * Z)) :=
  match list_find (top q) q with
  | Some (i, e) => Some (e.1, e.2, delete i q)
  | None => None
  end.

(** [Pop] on an empty queue panics in Go; every call of backlog.go is
    guarded by [Empty]. Here it is [None]. *)
Definition Pop (q : list (A * Z)) : option (A * Z * list (A * Z)) :=
  match q !! tie q with
  | Some e =>
      if decide (top q e) then Some (e.1, e.2, delete (tie q) q)
      else popFirst q
  | None => popFirst q
  end.
End Queue.

End prque.

(** ** The engine state the backlog reads and writes *)

(** [c.current]: the sequence and round of the round state, from which
    [currentView()] builds a view with both numbers present. *)
Record core := {
  address : Address;                       (* c.Address() *)
  state : State;                           (* c.state *)
  current : Z * Z;                         (* c.currentView(): sequence, round *)
  valSet : Address -> option Validator;    (* c.valSet.GetByAddress, nil as None *)
  backlogs : gmap Address (list (item * Z))
}.

Definition currentView (c : core) : Z * Z := current c.

(** Modelled from the spec: the validator set is an external collaborator,
    "lookup(address) -> validator-or-absent". *)
Definition GetByAddress (c : core) (a : Address) : option Validator := valSet c a.

Definition withBacklogs (c : core) (b : gmap Address (list (item * Z))) : core :=
  {| address := address c; state := state c; current := current c;
     valSet := valSet c; backlogs := b |}.

(** The engine moving on: another state, another current view. The backlog
    itself never writes these two. *)
Definition withState (c : core) (st : State) : core :=
  {| address := address c; state := st; current := current c;
     valSet := valSet c; backlogs := backlogs c |}.

Definition withView (c : core) (st : State) (v : Z * Z) : core :=
  {| address := address c; state := st; current := v;
     valSet := valSet c; backlogs := backlogs c |}.

(** ** checkMessage (lines 38-89) *)

Section Check.
Context `{MsgCodes}.

Definition checkState (st : State) (msgCode : Z) : option error :=
  match st with
  | StateAcceptRequest =>
      if msgCode >? msgPreprepare then Some errFutureMessage else None
  | StatePreprepared =>
      if msgCode <? msgPrepare then Some errInvalidMessage
      else if msgCode >? msgPrepare then Some errFutureMessage
      else None
  | StatePrepared =>
      if msgCode <? msgCommit then Some errInvalidMessage else None
  | StateCommitted => Some errInvalidMessage
  end.

(** [view] is the [*View] argument: [None] is the nil pointer. *)
Definition checkMessage (c : core) (msgCode : Z) (view : option View)
  : option error :=
  match view ≫= fields with
  | None => Some errInvalidMessage
  | Some v =>
      if msgCode =? msgRoundChange then
        if bigCmp v.1 (currentView c).1 >? 0 then Some errFutureMessage
        else if Cmp v (currentView c) <? 0 then Some errOldMessage
        else None
      else if Cmp v (currentView c) >? 0 then Some errFutureMessage
      else if Cmp v (currentView c) <? 0 then Some errOldMessage
      else checkState (state c) msgCode
  end.
End Check.

(** ** toPriority (lines 24-32 and 239-248) *)

(** A Go [uint64] result: the value modulo [2^64]. *)
Definition wrap64 (x : Z) : Z := x mod 2 ^ 64.

(** [Uint64()] of a [big.Int]: the low 64 bits of its magnitude. *)
Definition Uint64 (x : Z) : Z := wrap64 (Z.abs x).

(** The conversion [float32(n)] of a [uint64] [n]: the nearest number with a
    24-bit significand, ties going to the even significand. Below [2^24]
    every integer is such a number; above, [n] lies between two neighbours
    [m * 2^e] and [(m+1) * 2^e] with [2^23 <= m < 2^24]. The result is an
    integer (at most [2^64]), given here as a [Z]. *)
Definition float32 (n : Z) : Z :=
  if n <? 2 ^ 24 then n
  else
    let e := Z.log2 n - 23 in
    let m := Z.shiftr n e in
    let r := n mod 2 ^ e in
    let half := 2 ^ (e - 1) in
    let m' := if (half <? r) || ((r =? half) && Z.odd m) then m + 1 else m in
    Z.shiftl m' e.

Section Priority.
Context `{MsgCodes}.

(** [msgPriority = map[uint64]int{msgPreprepare: 1, msgCommit: 2,
    msgPrepare: 3}]. *)
Definition msgPriority : gmap Z Z :=
  {[ msgPreprepare := 1; msgCommit := 2; msgPrepare := 3 ]}.

(** [msgPriority[msgCode]]: a missing key reads as the zero value. *)
Definition rank (msgCode : Z) : Z := default 0 (msgPriority !! msgCode).

(** The [uint64] that line 247 converts and negates. *)
Definition packedKey (msgCode s r : Z) : Z :=
  wrap64 (wrap64 (wrap64 (Uint64 s * 1000) + wrap64 (Uint64 r * 10))
          + wrap64 (rank msgCode)).

(** [view] is dereferenced without a nil check: a nil [Sequence], or a nil
    [Round] of a message that is not a round change, panics. *)
Definition toPriority (msgCode : Z) (view : View) : option Z :=
  if msgCode =? msgRoundChange then
    s ← Sequence view;
    Some (- float32 (wrap64 (Uint64 s * 1000)))
  else
    s ← Sequence view;
    r ← Round view;
    Some (- float32 (packedKey msgCode s r)).
End Priority.

(** ** storeQBFTBacklog and storeBacklog (lines 91-155) *)

Section Store.
Context `{MsgCodes} `{Decoder}.

(** [backlog := c.backlogs[src]; if backlog == nil { backlog = prque.New() }] *)
Definition queueOf (c : core) (a : Address) : list (item * Z) :=
  default prque.New (backlogs c !! a).

Definition storeQBFTBacklog (c : core) (msg : QBFTMessage) : option core :=
  let src := qbftSource msg in
  if decide (src = address c) then Some c
  else
    let backlog := queueOf c src in
    let view := qbftView msg in
    prio ← toPriority (qbftCode msg) view;
    Some (withBacklogs c (<[src := prque.Push backlog (QBFT msg) prio]> (backlogs c))).

(** One arm of the switch of lines 133-153: decode, and push on success. *)
Definition pushDecoded (backlog : list (item * Z)) (msg : message)
    (decoded : option View) : option (list (item * Z)) :=
  match decoded with
  | Some view =>
      prio ← toPriority (Code msg) view;
      Some (prque.Push backlog (Legacy msg) prio)
  | None => Some backlog
  end.

Definition storeBacklog (c : core) (msg : message) (src : Validator)
  : option core :=
  if decide (valAddress src = address c) then Some c
  else
    let backlog := queueOf c (valAddress src) in
    backlog' ←
      (if Code msg =? msgPreprepare then
         pushDecoded backlog msg (decodePreprepare (Msg msg))
       else if Code msg =? msgRoundChange then
         pushDecoded backlog msg (decodeRoundChange (Msg msg))
       else
         pushDecoded backlog msg (decodeSubject (Msg msg)));
    Some (withBacklogs c (<[valAddress src := backlog']> (backlogs c))).
End Store.

(** ** processBacklog (lines 157-237) *)

(** The variables of the loop of lines 177-235, with what it has handed to
    [go c.sendEvent] so far, and (as a record of the run, not a variable of
    the code) the entries popped so far with the verdict each received. *)
Record loopState := {
  backlog : list (item * Z);
  isFuture : bool;
  sent : list backlogEvent;
  pops : list (item * Z * option error)
}.

Section Drain.
Context `{MsgCodes} `{Decoder} `{prque.TieBreak item}.

(** Lines 184-217: the code of a popped entry. *)
Definition itemCode (m : item) : Z :=
  match m with
  | QBFT msg => qbftCode msg
  | Legacy msg => Code msg
  end.

(** Lines 184-217: the view of a popped entry; it stays the zero [View]
    when the payload of a legacy message does not decode. *)
Definition itemView (m : item) : View :=
  match m with
  | QBFT msg => qbftView msg
  | Legacy msg =>
      if Code msg =? msgPreprepare then
        match decodePreprepare (Msg msg) with Some v => v | None => zeroView end
      else if Code msg =? msgRoundChange then
        match decodeRoundChange (Msg msg) with Some v => v | None => zeroView end
      else
        match decodeSubject (Msg msg) with Some v => v | None => zeroView end
  end.

(** The verdict of line 220 on a popped entry. *)
Definition classify (c : core) (m : item) : option error :=
  checkMessage c (itemCode m) (Some (itemView m)).

(** One iteration of the loop (lines 178-234). *)
Definition body (c : core) (src : Validator) (st : loopState) : loopState :=
  match prque.Pop (backlog st) with
  | None => st
  | Some (m, prio, rest) =>
      let event := {| src := src; msg := m |} in
      match classify c m with
      | Some err =>
          if decide (err = errFutureMessage) then
            {| backlog := prque.Push rest m prio; isFuture := true;
               sent := sent st; pops := pops st ++ [(m, prio, Some err)] |}
          else
            {| backlog := rest; isFuture := isFuture st;
               sent := sent st; pops := pops st ++ [(m, prio, Some err)] |}
      | None =>
          {| backlog := rest; isFuture := isFuture st;
             sent := sent st ++ [event]; pops := pops st ++ [(m, prio, None)] |}
      end
  end.

(** [for !(backlog.Empty() || isFuture) { ... }], run for at most [fuel]
    iterations. *)
Fixpoint loop (c : core) (src : Validator) (fuel : nat) (st : loopState)
  : loopState :=
  if prque.Empty (backlog st) || isFuture st then st
  else
    match fuel with
    | O => st
    | S fuel' => loop c src fuel' (body c src st)
    end.

(** The loop has come to its end: its condition is false. *)
Definition finished (st : loopState) : bool :=
  prque.Empty (backlog st) || isFuture st.

Definition start (q : list (item * Z)) : loopState :=
  {| backlog := q; isFuture := false; sent := []; pops := [] |}.

(** The pass over one sender's queue; one iteration per queued entry is
    enough fuel ([drain_finished] below). *)
Definition drain (c : core) (src : Validator) (q : list (item * Z))
  : loopState :=
  loop c src (length q) (start q).

(** The body of the [range] loop (lines 162-235) for one key of the map:
    [acc] is the map being updated and the events spawned so far. The guard
    of line 162 never fires: the two store functions, the only writers of
    the map, never leave a nil queue in it, and the map of the model holds
    none. A queue drained to the end stays in the map, empty. *)
Definition processSender (c : core)
    (acc : gmap Address (list (item * Z)) * list backlogEvent)
    (kv : Address * list (item * Z))
  : gmap Address (list (item * Z)) * list backlogEvent :=
  match GetByAddress c kv.1 with
  | None => (delete kv.1 acc.1, acc.2)
  | Some src =>
      let st := drain c src kv.2 in
      (<[kv.1 := backlog st]> acc.1, acc.2 ++ sent st)
  end.

(** The whole pass. Go ranges over the map in an unspecified order;
    [map_to_list] fixes one. The second component is the list of events
    handed to [go c.sendEvent]. *)
Definition processBacklog (c : core) : core * list backlogEvent :=
  let r := foldl (processSender c) (backlogs c, []) (map_to_list (backlogs c)) in
  (withBacklogs c r.1, r.2).

(** What the pass does for one key, taken by itself: the events it spawns
    and the queue it leaves under the key ([None]: the key is deleted). *)
Definition senderEvents (c : core) (kv : Address * list (item * Z))
  : list backlogEvent :=
  match GetByAddress c kv.1 with
  | None => []
  | Some src => sent (drain c src kv.2)
  end.

Definition senderQueue (c : core) (kv : Address * list (item * Z))
  : option (list (item * Z)) :=
  match GetByAddress c kv.1 with
  | None => None
  | Some src => Some (backlog (drain c src kv.2))
  end.
End Drain.

(** A loop state with [s] and [p] put in front of what was sent and popped:
    how a pass that has already sent [s] and popped [p] relates to a fresh
    pass over the same queue. *)
Definition extend (s : list backlogEvent) (p : list (item * Z * option error))
    (st : loopState) : loopState :=
  {| backlog := backlog st; isFuture := isFuture st;
     sent := s ++ sent st; pops := p ++ pops st |}.

Section Decoded.
Context `{MsgCodes} `{Decoder}.

(** The result of the [Decode] call that lines 195-215 (and 133-153) make
    for a legacy message: which payload type is tried follows the code. *)
Definition decoded (msg : message) : option View :=
  if Code msg =? msgPreprepare then decodePreprepare (Msg msg)
  else if Code msg =? msgRoundChange then decodeRoundChange (Msg msg)
  else decodeSubject (Msg msg).
End Decoded.

(** ** The entry points as operations on the engine *)

Inductive operation :=
  | StoreQBFT (msg : QBFTMessage)                  (* storeQBFTBacklog(msg) *)
  | Store (msg : message) (src : Validator)        (* storeBacklog(msg, src) *)
  | Process                                        (* processBacklog() *)
  | Advance (st : State) (v : Z * Z).              (* the engine changes state or view *)

Section Run.
Context `{MsgCodes} `{Decoder} `{prque.TieBreak item}.

Definition step (c : core) (o : operation) : option core :=
  match o with
  | StoreQBFT msg => storeQBFTBacklog c msg
  | Store msg src => storeBacklog c msg src
  | Process => Some (processBacklog c).1
  | Advance st v => Some (withView c st v)
  end.

Fixpoint run (c : core) (os : list operation) : option core :=
  match os with
  | [] => Some c
  | o :: os' => c' ← step c o; run c' os'
  end.
End Run.

(** ** The ordering law, as the specification words it

    "A drain pass never dispatches the message with view V2 before the one
    with view V1", for views V1 < V2 of two messages of one sender: of two
    events of a pass, the later one never carries the lower view. *)
Section OrderingLaw.
Context `{MsgCodes} `{Decoder} `{prque.TieBreak item}.

Definition replayInViewOrder (c : core) (sender : Validator)
    (q : list (item * Z)) : Prop :=
  forall (i j : nat) (ei ej : backlogEvent) (vi vj : Z * Z),
    (i < j)%nat ->
    sent (drain c sender q) !! i = Some ei ->
    sent (drain c sender q) !! j = Some ej ->
    fields (itemView (msg ei)) = Some vi ->
    fields (itemView (msg ej)) = Some vj ->
    ~ viewLt vj vi.
End OrderingLaw.

(** ** Book-keeping of a pass and of the backlog *)

(** The entries a pass took out of the queue for good: those it popped with
    a verdict other than future. *)
Definition removed (p : list (item * Z * option error)) : list (item * Z) :=
  omap (fun x : item * Z * option error =>
          match x.2 with
          | Some errFutureMessage => None
          | _ => Some x.1
          end) p.

(** The events of the entries a pass popped and admitted, in the order of
    the pops. *)
Definition posted (sender : Validator) (p : list (item * Z * option error))
  : list backlogEvent :=
  omap (fun x : item * Z * option error =>
          match x.2 with
          | None => Some {| src := sender; msg := x.1.1 |}
          | Some _ => None
          end) p.

Section Keyed.
Context `{MsgCodes} `{Decoder}.

(** An entry carries the key that [toPriority] gives to its own code and
    view (so its view has the numbers the key needs). *)
Definition keyed (e : item * Z) : Prop :=
  toPriority (itemCode e.1) (itemView e.1) = Some e.2.

(** A new-style entry lies in the queue of its own source. *)
Definition filed (a : Address) (e : item * Z) : Prop :=
  match e.1 with
  | QBFT m => qbftSource m = a
  | Legacy _ => True
  end.

Definition wellKeyed (b : gmap Address (list (item * Z))) : Prop :=
  forall a q e, b !! a = Some q -> e ∈ q -> keyed e /\ filed a e.
End Keyed.

(** ** A concrete instance

    The parameters fixed to run the model on examples: the codes numbered in
    declaration order, a decoder that reads a two-byte payload as sequence
    and round and rejects any other payload, and a queue that breaks ties
    towards its oldest pair. *)
Definition iotaCodes : MsgCodes :=
  {| msgPreprepare := 0; msgPrepare := 1; msgCommit := 2; msgRoundChange := 3 |}.

Definition byteZ (b : Byte.byte) : Z := Z.of_N (Byte.to_N b).

Definition twoBytes (p : list Byte.byte) : option View :=
  match p with
  | [s; r] => Some (mkView (byteZ s) (byteZ r))
  | _ => None
  end.

Definition twoByteDecoder : Decoder :=
  {| decodePreprepare := twoBytes; decodeRoundChange := twoBytes;
     decodeSubject := twoBytes |}.

Definition oldestFirst : prque.TieBreak item := fun _ => 0%nat.

(** A node with address 1, validators 1 to 4, an empty backlog. *)
Definition fourValidators (a : Address) : option Validator :=
  if ((1 <=? a) && (a <=? 4))%N then Some {| valAddress := a |} else None.

Definition node (st : State) (s r : Z) (b : gmap Address (list (item * Z))) : core :=
  {| address := 1%N; state := st; current := (s, r);
     valSet := fourValidators; backlogs := b |}.

(** A scenario: validator 2 sends the node a pre-prepare for view (5, 0) and
    a round change for view (5, 3) while the node is at view (4, 0). *)
Definition preprepare50 : QBFTMessage :=
  {| qbftCode := 0; qbftView := mkView 5 0; qbftSource := 2%N |}.

Definition commit50 : QBFTMessage :=
  {| qbftCode := 2; qbftView := mkView 5 0; qbftSource := 2%N |}.

Definition roundChange53 : QBFTMessage :=
  {| qbftCode := 3; qbftView := mkView 5 3; qbftSource := 2%N |}.

Definition preprepare51 : QBFTMessage :=
  {| qbftCode := 0; qbftView := mkView 5 1; qbftSource := 2%N |}.

Definition validator2 : Validator := {| valAddress := 2%N |}.

(** The queue of validator 2 after the two messages were stored. *)
Definition queue2 : list (item * Z) :=
  [(QBFT preprepare50, -5001); (QBFT roundChange53, -5000)].

(** The same with a commit in place of the pre-prepare. *)
Definition queue2' : list (item * Z) :=
  [(QBFT commit50, -5002); (QBFT roundChange53, -5000)].

(** A legacy message whose payload does not decode, and one that does. *)
Definition garbled : message := {| Code := 1; Msg := [] |}.

Definition prepare50 : message := {| Code := 1; Msg := [Byte.x05; Byte.x00] |}.

(** * Properties *)

(** ** The order on views *)

Lemma bigCmp_lt x y : (bigCmp x y <? 0) = true <-> x < y.
Proof. unfold bigCmp. destruct (Z.compare_spec x y); split; (lia || discriminate || reflexivity). Qed.

Lemma bigCmp_gt x y : (bigCmp x y >? 0) = true <-> y < x.
Proof. unfold bigCmp. destruct (Z.compare_spec x y); split; (lia || discriminate || reflexivity). Qed.

Lemma bigCmp_eq x y : (bigCmp x y =? 0) = true <-> x = y.
Proof. unfold bigCmp. destruct (Z.compare_spec x y); split; (lia || discriminate || reflexivity). Qed.

Lemma Cmp_lt v y : (Cmp v y <? 0) = true <-> viewLt v y.
Proof.
  unfold Cmp, viewLt.
  destruct (bigCmp v.1 y.1 =? 0) eqn:E1; simpl.
  - apply bigCmp_eq in E1.
    destruct (bigCmp v.2 y.2 =? 0) eqn:E2; simpl.
    + apply bigCmp_eq in E2. split; [discriminate | lia].
    + rewrite bigCmp_lt. lia.
  - assert (v.1 <> y.1) by (intros E; apply bigCmp_eq in E; congruence).
    rewrite bigCmp_lt. lia.
Qed.

Lemma Cmp_gt v y : (Cmp v y >? 0) = true <-> viewLt y v.
Proof.
  unfold Cmp, viewLt.
  destruct (bigCmp v.1 y.1 =? 0) eqn:E1; simpl.
  - apply bigCmp_eq in E1.
    destruct (bigCmp v.2 y.2 =? 0) eqn:E2; simpl.
    + apply bigCmp_eq in E2. split; [discriminate | lia].
    + rewrite bigCmp_gt. lia.
  - assert (v.1 <> y.1) by (intros E; apply bigCmp_eq in E; congruence).
    rewrite bigCmp_gt. lia.
Qed.

Lemma viewLt_irrefl v : ~ viewLt v v.
Proof. unfold viewLt. lia. Qed.

Lemma viewLt_asym v y : viewLt v y -> ~ viewLt y v.
Proof. unfold viewLt. lia. Qed.

Lemma viewLt_trans v y z : viewLt v y -> viewLt y z -> viewLt v z.
Proof. unfold viewLt. lia. Qed.

Lemma viewLt_total v y : viewLt v y \/ v = y \/ viewLt y v.
Proof.
  destruct v as [a b], y as [a' b']. unfold viewLt. simpl.
  destruct (Z.lt_total a a') as [?|[?|?]]; [lia| |lia].
  destruct (Z.lt_total b b') as [?|[?|?]]; [lia| |lia].
  right. left. congruence.
Qed.

Lemma Cmp_same v : Cmp v v = 0.
Proof.
  unfold Cmp. assert (E : forall x, bigCmp x x = 0).
  { intros x. unfold bigCmp. by rewrite Z.compare_refl. }
  by rewrite !E.
Qed.

Lemma fields_mkView s r : fields (mkView s r) = Some (s, r).
Proof. reflexivity. Qed.

Lemma fields_zeroView : fields zeroView = None.
Proof. reflexivity. Qed.

(** ** checkMessage *)

Section CheckProperties.
Context `{MsgCodes}.

Lemma checkMessage_nil c code : checkMessage c code None = Some errInvalidMessage.
Proof. reflexivity. Qed.

Lemma checkMessage_malformed c code view :
  fields view = None -> checkMessage c code (Some view) = Some errInvalidMessage.
Proof. intros E. unfold checkMessage. simpl. by rewrite E. Qed.

(** The round-change arm (lines 43-50) on a well-formed view. *)
Lemma round_change_arm c view v :
  fields view = Some v ->
  checkMessage c msgRoundChange (Some view) =
    if bigCmp v.1 (currentView c).1 >? 0 then Some errFutureMessage
    else if Cmp v (currentView c) <? 0 then Some errOldMessage
    else None.
Proof.
  intros E. unfold checkMessage. simpl. rewrite E. by rewrite Z.eqb_refl.
Qed.

(** The other arm (lines 52-88) on a well-formed view. *)
Lemma ordinary_arm c code view v :
  code <> msgRoundChange ->
  fields view = Some v ->
  checkMessage c code (Some view) =
    if Cmp v (currentView c) >? 0 then Some errFutureMessage
    else if Cmp v (currentView c) <? 0 then Some errOldMessage
    else checkState (state c) code.
Proof.
  intros Hne E. unfold checkMessage. simpl. rewrite E.
  by apply Z.eqb_neq in Hne as ->.
Qed.

(** A message for the current view that is not a round change is judged
    by the state alone. *)
Lemma checkMessage_current c code view :
  code <> msgRoundChange ->
  fields view = Some (currentView c) ->
  checkMessage c code (Some view) = checkState (state c) code.
Proof.
  intros Hne E. rewrite (ordinary_arm _ _ _ _ Hne E).
  rewrite Cmp_same. reflexivity.
Qed.
End CheckProperties.

Section CheckClaims.
Context `{MsgCodes}.

(** C3. State-table classification: for a message that is not a round
    change and whose well-formed view equals the current view, the verdict
    depends on the state as follows. AcceptRequest admits Preprepare and
    defers Prepare and Commit as future; Preprepared admits Prepare, rejects
    Preprepare as invalid and defers Commit as future; Prepared admits
    Commit and rejects Preprepare and Prepare as invalid; Committed rejects
    every message that is not a round change as invalid. *)
Theorem checkMessage_state_table `{!MsgCodesRanked} (c : core) (view : View) :
  fields view = Some (currentView c) ->
  match state c with
  | StateAcceptRequest =>
      checkMessage c msgPreprepare (Some view) = None /\
      checkMessage c msgPrepare (Some view) = Some errFutureMessage /\
      checkMessage c msgCommit (Some view) = Some errFutureMessage
  | StatePreprepared =>
      checkMessage c msgPrepare (Some view) = None /\
      checkMessage c msgPreprepare (Some view) = Some errInvalidMessage /\
      checkMessage c msgCommit (Some view) = Some errFutureMessage
  | StatePrepared =>
      checkMessage c msgCommit (Some view) = None /\
      checkMessage c msgPreprepare (Some view) = Some errInvalidMessage /\
      checkMessage c msgPrepare (Some view) = Some errInvalidMessage
  | StateCommitted =>
      forall code, code <> msgRoundChange ->
        checkMessage c code (Some view) = Some errInvalidMessage
  end.
Proof.
  intros E.
  pose proof preprepare_lt_prepare as H1.
  pose proof prepare_lt_commit as H2.
  pose proof roundchange_ne_preprepare as N1.
  pose proof roundchange_ne_prepare as N2.
  pose proof roundchange_ne_commit as N3.
  assert (T : forall code, code <> msgRoundChange ->
              checkMessage c code (Some view) = checkState (state c) code).
  { intros code Hne. by apply checkMessage_current. }
  destruct (state c) eqn:St.
  - rewrite !T by congruence. simpl.
    repeat split.
    + destruct (msgPreprepare >? msgPreprepare) eqn:G; [|done].
      apply Z.gtb_lt in G. lia.
    + destruct (msgPrepare >? msgPreprepare) eqn:G; [done|].
      rewrite Z.gtb_ltb in G. apply Z.ltb_ge in G. lia.
    + destruct (msgCommit >? msgPreprepare) eqn:G; [done|].
      rewrite Z.gtb_ltb in G. apply Z.ltb_ge in G. lia.
  - rewrite !T by congruence. simpl.
    repeat split.
    + rewrite Z.ltb_irrefl. destruct (msgPrepare >? msgPrepare) eqn:G; [|done].
      apply Z.gtb_lt in G. lia.
    + by apply Z.ltb_lt in H1 as ->.
    + destruct (msgCommit <? msgPrepare) eqn:L; [apply Z.ltb_lt in L; lia|].
      destruct (msgCommit >? msgPrepare) eqn:G; [done|].
      rewrite Z.gtb_ltb in G. apply Z.ltb_ge in G. lia.
  - rewrite !T by congruence. simpl.
    repeat split.
    + by rewrite Z.ltb_irrefl.
    + assert (L : msgPreprepare < msgCommit) by lia.
      by apply Z.ltb_lt in L as ->.
    + by apply Z.ltb_lt in H2 as ->.
  - intros code Hne. by rewrite T.
Qed.

(** C4. Round-change admissibility window: a round change with a
    well-formed view is future exactly when its sequence is above the
    current sequence; otherwise it is stale exactly when its view is below
    the current view in the order on views; otherwise it is admitted. The
    state plays no part. *)
Theorem checkMessage_round_change (c : core) (s r : Z) :
  let verdict := checkMessage c msgRoundChange (Some (mkView s r)) in
  (verdict = Some errFutureMessage <-> (currentView c).1 < s) /\
  (verdict = Some errOldMessage <->
     ~ (currentView c).1 < s /\ viewLt (s, r) (currentView c)) /\
  (verdict = None <->
     ~ (currentView c).1 < s /\ ~ viewLt (s, r) (currentView c)) /\
  (forall st, checkMessage (withState c st) msgRoundChange (Some (mkView s r))
              = verdict).
Proof.
  intros verdict. subst verdict.
  rewrite (round_change_arm c _ (s, r) (fields_mkView s r)).
  simpl.
  destruct (bigCmp s (currentView c).1 >? 0) eqn:G.
  - apply bigCmp_gt in G.
    repeat split; try done; try (intros [? _]; done); try (intros; lia).
    intros st.
    rewrite (round_change_arm _ _ (s, r) (fields_mkView s r)).
    change (currentView (withState c st)) with (currentView c).
    simpl. by apply bigCmp_gt in G as ->.
  - assert (~ (currentView c).1 < s).
    { intros L. apply bigCmp_gt in L. congruence. }
    destruct (Cmp (s, r) (currentView c) <? 0) eqn:L.
    + apply Cmp_lt in L.
      repeat split; try done; try (intros [_ ?]; done).
      intros st.
      rewrite (round_change_arm _ _ (s, r) (fields_mkView s r)).
      change (currentView (withState c st)) with (currentView c).
      simpl. rewrite G. apply Cmp_lt in L. by rewrite L.
    + assert (~ viewLt (s, r) (currentView c)).
      { intros V. apply Cmp_lt in V. congruence. }
      repeat split; try done; try (intros [_ ?]; done).
      intros st.
      rewrite (round_change_arm _ _ (s, r) (fields_mkView s r)).
      change (currentView (withState c st)) with (currentView c).
      simpl. by rewrite G, L.
Qed.

(** C6. Stale monotonicity: a message of any kind, round change included,
    whose view is below the current view in the order on views is judged
    stale or invalid, never future. *)
Theorem checkMessage_below_current (c : core) (code : Z) (view : View) (v : Z * Z) :
  fields view = Some v ->
  viewLt v (currentView c) ->
  (checkMessage c code (Some view) = Some errOldMessage \/
   checkMessage c code (Some view) = Some errInvalidMessage) /\
  checkMessage c code (Some view) <> Some errFutureMessage.
Proof.
  intros E L.
  assert (R : checkMessage c code (Some view) = Some errOldMessage).
  { pose proof (viewLt_asym _ _ L) as NG.
    assert (G : (Cmp v (currentView c) >? 0) = false).
    { destruct (Cmp v (currentView c) >? 0) eqn:G; [|done].
      apply Cmp_gt in G. done. }
    apply Cmp_lt in L.
    destruct (decide (code = msgRoundChange)) as [->|Hne].
    - rewrite (round_change_arm _ _ _ E).
      destruct (bigCmp v.1 (currentView c).1 >? 0) eqn:B.
      + apply bigCmp_gt in B. apply Cmp_lt in L. unfold viewLt in L. lia.
      + by rewrite L.
    - rewrite (ordinary_arm _ _ _ _ Hne E). by rewrite G, L. }
  rewrite R. split; [by left | discriminate].
Qed.
End CheckClaims.

(** ** The contract of the priority queue

    Everything the drain needs of [prque.Pop], whatever [tie] is: it fails
    on the empty queue only, and otherwise removes one pair whose priority no
    queued pair exceeds. *)

Section QueueFacts.
Context {A : Type} `{prque.TieBreak A}.
Implicit Types q rest : list (A * Z).

Lemma top_exists q : q <> [] -> exists e, e ∈ q /\ prque.top q e.
Proof.
  induction q as [|x q IH]; [done|]. intros _.
  destruct q as [|y q'].
  - exists x. split; [left|]. unfold prque.top. constructor; [lia|constructor].
  - destruct IH as (e & Hin & Htop); [done|].
    destruct (Z_le_gt_dec x.2 e.2) as [Hle|Hgt].
    + exists e. split; [by right|]. unfold prque.top in *. by constructor.
    + exists x. split; [left|]. unfold prque.top in *. constructor; [lia|].
      eapply Forall_impl; [exact Htop|]. simpl. intros; lia.
Qed.

Lemma popFirst_Some q v p rest :
  prque.popFirst q = Some (v, p, rest) ->
  exists i, q !! i = Some (v, p) /\ rest = delete i q /\ prque.top q (v, p).
Proof.
  unfold prque.popFirst.
  destruct (list_find (prque.top q) q) as [[i e]|] eqn:F; [|done].
  intros [= <- <- <-]. apply list_find_Some in F as (Hi & Ht & _).
  exists i. by destruct e.
Qed.

Lemma popFirst_None q : prque.popFirst q = None -> q = [].
Proof.
  unfold prque.popFirst.
  destruct (list_find (prque.top q) q) as [[i e]|] eqn:F; [done|].
  intros _. apply list_find_None in F.
  destruct (decide (q = [])) as [|Hne]; [done|].
  destruct (top_exists q Hne) as (e & Hin & Ht).
  rewrite Forall_forall in F. by destruct (F e Hin).
Qed.

Lemma Pop_Some q v p rest :
  prque.Pop q = Some (v, p, rest) ->
  exists i, q !! i = Some (v, p) /\ rest = delete i q /\ prque.top q (v, p).
Proof.
  unfold prque.Pop.
  destruct (q !! prque.tie q) as [e|] eqn:L; [|apply popFirst_Some].
  destruct (decide (prque.top q e)) as [Ht|]; [|apply popFirst_Some].
  intros [= <- <- <-]. exists (prque.tie q). by destruct e.
Qed.

Lemma Pop_None q : prque.Pop q = None <-> q = [].
Proof.
  split.
  - unfold prque.Pop.
    destruct (q !! prque.tie q) as [e|] eqn:L; [|apply popFirst_None].
    destruct (decide (prque.top q e)); [done|apply popFirst_None].
  - intros ->. reflexivity.
Qed.

Lemma Empty_true q : prque.Empty q = true <-> q = [].
Proof. by destruct q. Qed.

Lemma Pop_length q v p rest :
  prque.Pop q = Some (v, p, rest) -> length q = S (length rest).
Proof.
  intros (i & Hi & -> & _)%Pop_Some.
  pose proof (lookup_lt_Some _ _ _ Hi) as Hlt.
  rewrite length_delete by eauto. lia.
Qed.

Lemma Pop_perm q v p rest :
  prque.Pop q = Some (v, p, rest) -> q ≡ₚ (v, p) :: rest.
Proof.
  intros (i & Hi & -> & _)%Pop_Some. by apply delete_Permutation.
Qed.

Lemma Pop_top q v p rest :
  prque.Pop q = Some (v, p, rest) -> forall e, e ∈ q -> e.2 <= p.
Proof.
  intros (i & Hi & -> & Ht)%Pop_Some e Hin.
  unfold prque.top in Ht. rewrite Forall_forall in Ht. exact (Ht e Hin).
Qed.

Lemma Push_perm q v p : prque.Push q v p ≡ₚ (v, p) :: q.
Proof. unfold prque.Push. by rewrite Permutation_app_comm. Qed.

Lemma Push_length q v p : length (prque.Push q v p) = S (length q).
Proof. unfold prque.Push. rewrite length_app. simpl. lia. Qed.
End QueueFacts.

(** ** The drain loop *)

Section DrainFacts.
Context `{MsgCodes} `{Decoder} `{prque.TieBreak item}.
Implicit Types (c : core) (src : Validator) (st : loopState) (q : list (item * Z)).

Lemma loop_finished c src fuel st : finished st = true -> loop c src fuel st = st.
Proof. unfold finished. intros F. destruct fuel; simpl; by rewrite F. Qed.

Lemma loop_step c src fuel st :
  finished st = false -> loop c src (S fuel) st = loop c src fuel (body c src st).
Proof. unfold finished. intros F. simpl. by rewrite F. Qed.

Lemma body_extend c src s p st :
  body c src (extend s p st) = extend s p (body c src st).
Proof.
  unfold body. simpl.
  destruct (prque.Pop (backlog st)) as [[[m prio] rest]|]; [|done].
  destruct (classify c m) as [err|].
  - destruct (decide (err = errFutureMessage)); unfold extend; simpl;
      by rewrite ?app_assoc.
  - unfold extend; simpl. by rewrite !app_assoc.
Qed.

Lemma loop_extend c src fuel s p st :
  loop c src fuel (extend s p st) = extend s p (loop c src fuel st).
Proof.
  revert st. induction fuel as [|fuel IH]; intros st; simpl.
  - by destruct (prque.Empty (backlog st) || isFuture st).
  - destruct (prque.Empty (backlog st) || isFuture st); [done|].
    by rewrite body_extend, IH.
Qed.

(** What one iteration does to a fresh pass, by the verdict on the entry
    it pops. *)
Lemma body_future c src q m prio rest :
  prque.Pop q = Some (m, prio, rest) ->
  classify c m = Some errFutureMessage ->
  body c src (start q) =
    {| backlog := prque.Push rest m prio; isFuture := true; sent := [];
       pops := [(m, prio, Some errFutureMessage)] |}.
Proof. intros P C. unfold body. simpl. rewrite P, C. by rewrite decide_True. Qed.

Lemma body_skip c src q m prio rest err :
  prque.Pop q = Some (m, prio, rest) ->
  classify c m = Some err ->
  err <> errFutureMessage ->
  body c src (start q) = extend [] [(m, prio, Some err)] (start rest).
Proof. intros P C N. unfold body. simpl. rewrite P, C. by rewrite decide_False. Qed.

Lemma body_post c src q m prio rest :
  prque.Pop q = Some (m, prio, rest) ->
  classify c m = None ->
  body c src (start q) =
    extend [{| src := src; msg := m |}] [(m, prio, None)] (start rest).
Proof. intros P C. unfold body. simpl. by rewrite P, C. Qed.

Lemma start_unfinished q m prio rest :
  prque.Pop q = Some (m, prio, rest) -> finished (start q) = false.
Proof.
  intros P. unfold finished. simpl. destruct q; [|done].
  by rewrite (proj2 (Pop_None [])) in P.
Qed.

(** The three equations of a pass over a non-empty queue. *)
Lemma drain_future c src q m prio rest :
  prque.Pop q = Some (m, prio, rest) ->
  classify c m = Some errFutureMessage ->
  drain c src q =
    {| backlog := prque.Push rest m prio; isFuture := true; sent := [];
       pops := [(m, prio, Some errFutureMessage)] |}.
Proof.
  intros P C. unfold drain. rewrite (Pop_length _ _ _ _ P).
  rewrite loop_step by eauto using start_unfinished.
  rewrite (body_future _ _ _ _ _ _ P C).
  apply loop_finished. unfold finished. simpl. apply orb_true_r.
Qed.

Lemma drain_skip c src q m prio rest err :
  prque.Pop q = Some (m, prio, rest) ->
  classify c m = Some err ->
  err <> errFutureMessage ->
  drain c src q = extend [] [(m, prio, Some err)] (drain c src rest).
Proof.
  intros P C N. unfold drain. rewrite (Pop_length _ _ _ _ P).
  rewrite loop_step by eauto using start_unfinished.
  rewrite (body_skip _ _ _ _ _ _ _ P C N). apply loop_extend.
Qed.

Lemma drain_post c src q m prio rest :
  prque.Pop q = Some (m, prio, rest) ->
  classify c m = None ->
  drain c src q =
    extend [{| src := src; msg := m |}] [(m, prio, None)] (drain c src rest).
Proof.
  intros P C. unfold drain. rewrite (Pop_length _ _ _ _ P).
  rewrite loop_step by eauto using start_unfinished.
  rewrite (body_post _ _ _ _ _ _ P C). apply loop_extend.
Qed.

Lemma drain_nil c src : drain c src [] = start [].
Proof. reflexivity. Qed.

(** An induction principle for passes: on the number of queued entries,
    through the first entry popped. *)
Lemma drain_ind c src (P : list (item * Z) -> loopState -> Prop) :
  P [] (start []) ->
  (forall q m prio rest,
      prque.Pop q = Some (m, prio, rest) ->
      classify c m = Some errFutureMessage ->
      P q {| backlog := prque.Push rest m prio; isFuture := true; sent := [];
             pops := [(m, prio, Some errFutureMessage)] |}) ->
  (forall q m prio rest err,
      prque.Pop q = Some (m, prio, rest) ->
      classify c m = Some err -> err <> errFutureMessage ->
      P rest (drain c src rest) ->
      P q (extend [] [(m, prio, Some err)] (drain c src rest))) ->
  (forall q m prio rest,
      prque.Pop q = Some (m, prio, rest) ->
      classify c m = None ->
      P rest (drain c src rest) ->
      P q (extend [{| src := src; msg := m |}] [(m, prio, None)]
             (drain c src rest))) ->
  forall q, P q (drain c src q).
Proof.
  intros Hnil Hfut Hskip Hpost q.
  remember (length q) as n eqn:Hn. revert q Hn.
  induction n as [|n IH]; intros q Hn.
  - destruct q; [|done]. exact Hnil.
  - destruct (prque.Pop q) as [[[m prio] rest]|] eqn:Pq.
    2: { apply Pop_None in Pq. subst q. done. }
    pose proof (Pop_length _ _ _ _ Pq) as L.
    assert (Hr : n = length rest) by lia.
    destruct (classify c m) as [err|] eqn:C.
    + destruct (decide (err = errFutureMessage)) as [->|N].
      * rewrite (drain_future _ _ _ _ _ _ Pq C). by eapply Hfut.
      * rewrite (drain_skip _ _ _ _ _ _ _ Pq C N). eapply Hskip; eauto.
    + rewrite (drain_post _ _ _ _ _ _ Pq C). eapply Hpost; eauto.
Qed.
End DrainFacts.

Section DrainProperties.
Context `{MsgCodes} `{Decoder} `{prque.TieBreak item}.
Implicit Types (c : core) (src : Validator) (st : loopState) (q : list (item * Z)).

Lemma Pop_elem q m prio rest e :
  prque.Pop q = Some (m, prio, rest) -> e ∈ rest -> e ∈ q.
Proof. intros P Hin. rewrite (Pop_perm _ _ _ _ P). by right. Qed.

Lemma Pop_head q m prio rest :
  prque.Pop q = Some (m, prio, rest) -> (m, prio) ∈ q.
Proof. intros P. rewrite (Pop_perm _ _ _ _ P). by left. Qed.

Lemma drain_finished c src q : finished (drain c src q) = true.
Proof.
  apply (drain_ind c src (fun _ st => finished st = true)); try done.
  intros. unfold finished. simpl. apply orb_true_r.
Qed.

Lemma drain_pops_length c src q : (length (pops (drain c src q)) <= length q)%nat.
Proof.
  apply (drain_ind c src (fun q st => (length (pops st) <= length q)%nat)).
  - simpl. lia.
  - intros q' m prio rest P _. simpl. rewrite (Pop_length _ _ _ _ P). lia.
  - intros q' m prio rest err P _ _ IH. simpl.
    rewrite (Pop_length _ _ _ _ P). lia.
  - intros q' m prio rest P _ IH. simpl.
    rewrite (Pop_length _ _ _ _ P). lia.
Qed.

Lemma loop_enough c src fuel q :
  (length q <= fuel)%nat -> loop c src fuel (start q) = drain c src q.
Proof.
  revert q. induction fuel as [|fuel IH]; intros q L.
  - destruct q; [done|simpl in L; lia].
  - destruct (prque.Pop q) as [[[m prio] rest]|] eqn:P.
    2: { apply Pop_None in P. by subst q. }
    pose proof (Pop_length _ _ _ _ P) as Lq.
    rewrite loop_step by eauto using start_unfinished.
    destruct (classify c m) as [err|] eqn:C.
    + destruct (decide (err = errFutureMessage)) as [->|N].
      * rewrite (body_future _ _ _ _ _ _ P C), (drain_future _ _ _ _ _ _ P C).
        apply loop_finished. unfold finished. simpl. apply orb_true_r.
      * rewrite (body_skip _ _ _ _ _ _ _ P C N), (drain_skip _ _ _ _ _ _ _ P C N).
        rewrite loop_extend, IH by lia. done.
    + rewrite (body_post _ _ _ _ _ _ P C), (drain_post _ _ _ _ _ _ P C).
      rewrite loop_extend, IH by lia. done.
Qed.

(** Every popped entry was queued, and its recorded verdict is that of
    [checkMessage] on it. *)
Lemma pops_sound c src q m prio verdict :
  (m, prio, verdict) ∈ pops (drain c src q) ->
  (m, prio) ∈ q /\ verdict = classify c m.
Proof.
  revert m prio verdict.
  apply (drain_ind c src (fun q st => forall m prio verdict,
    (m, prio, verdict) ∈ pops st -> (m, prio) ∈ q /\ verdict = classify c m)).
  - intros m prio verdict Hin. simpl in Hin. by apply elem_of_nil in Hin.
  - intros q' m prio rest P C m' prio' v' Hin. simpl in Hin.
    apply list_elem_of_singleton in Hin as [= -> -> ->].
    split; [by eapply Pop_head|done].
  - intros q' m prio rest err P C N IH m' prio' v' Hin. simpl in Hin.
    apply elem_of_cons in Hin as [[= -> -> ->]|Hin].
    + split; [by eapply Pop_head|done].
    + destruct (IH _ _ _ Hin). split; [by eapply Pop_elem|done].
  - intros q' m prio rest P C IH m' prio' v' Hin. simpl in Hin.
    apply elem_of_cons in Hin as [[= -> -> ->]|Hin].
    + split; [by eapply Pop_head|done].
    + destruct (IH _ _ _ Hin). split; [by eapply Pop_elem|done].
Qed.

(** Every event of a pass carries the validator of the sender and an
    entry of the queue that [checkMessage] admits. *)
Lemma sent_sound c sender q ev :
  ev ∈ sent (drain c sender q) ->
  src ev = sender /\ classify c (msg ev) = None /\
  exists prio, (msg ev, prio) ∈ q.
Proof.
  revert ev.
  apply (drain_ind c sender (fun q st => forall ev, ev ∈ sent st ->
    src ev = sender /\ classify c (msg ev) = None /\
    exists prio, (msg ev, prio) ∈ q)).
  - intros ev Hin. simpl in Hin. by apply elem_of_nil in Hin.
  - intros q' m prio rest P C ev Hin. simpl in Hin. by apply elem_of_nil in Hin.
  - intros q' m prio rest err P C N IH ev Hin. simpl in Hin.
    destruct (IH _ Hin) as (? & ? & prio' & ?).
    repeat split; try done. exists prio'. by eapply Pop_elem.
  - intros q' m prio rest P C IH ev Hin. simpl in Hin.
    apply elem_of_cons in Hin as [->|Hin].
    + simpl. repeat split; try done. exists prio. by eapply Pop_head.
    + destruct (IH _ Hin) as (? & ? & prio' & ?).
      repeat split; try done. exists prio'. by eapply Pop_elem.
Qed.

(** [isFuture] is set exactly by a future verdict. *)
Lemma isFuture_iff c src q :
  isFuture (drain c src q) = true <->
  exists m prio, (m, prio, Some errFutureMessage) ∈ pops (drain c src q).
Proof.
  apply (drain_ind c src (fun _ st => isFuture st = true <->
    exists m prio, (m, prio, Some errFutureMessage) ∈ pops st)).
  - simpl. split; [done|]. intros (m & prio & Hin). by apply elem_of_nil in Hin.
  - intros q' m prio rest P C. simpl. split; [|done].
    intros _. exists m, prio. by left.
  - intros q' m prio rest err P C N IH. simpl. rewrite IH.
    split; intros (m' & prio' & Hin); exists m', prio'.
    + by right.
    + apply elem_of_cons in Hin as [E|Hin]; [|done].
      by simplify_eq.
  - intros q' m prio rest P C IH. simpl. rewrite IH.
    split; intros (m' & prio' & Hin); exists m', prio'.
    + by right.
    + apply elem_of_cons in Hin as [[= -> -> ?]|Hin]; done.
Qed.
(** The entries of a pass are popped in descending order of priority. *)
Lemma pops_descending c sender q :
  StronglySorted (fun a b => b.1.2 <= a.1.2) (pops (drain c sender q)).
Proof.
  assert (B : forall q m prio rest,
             prque.Pop q = Some (m, prio, rest) ->
             Forall (fun b : item * Z * option error => b.1.2 <= prio)
               (pops (drain c sender rest))).
  { intros q' m prio rest P. apply Forall_forall. intros [[m' prio'] v'] Hin.
    apply pops_sound in Hin as (Hin & _). simpl.
    apply (Pop_top _ _ _ _ P (m', prio')). by eapply Pop_elem. }
  apply (drain_ind c sender (fun _ st =>
    StronglySorted (fun a b => b.1.2 <= a.1.2) (pops st))).
  - constructor.
  - intros. simpl. repeat constructor.
  - intros q' m prio rest err P _ _ IH. simpl. constructor; [done|].
    by eapply B.
  - intros q' m prio rest P _ IH. simpl. constructor; [done|].
    by eapply B.
Qed.
End DrainProperties.

Section DrainClaims.
Context `{MsgCodes} `{Decoder} `{prque.TieBreak item}.
Implicit Types (c : core) (q : list (item * Z)).

(** C5. Drain-pass semantics: a pass over one sender's queue pops an entry
    of greatest priority and judges it against the current view and state.
    A future entry is pushed back with the priority it was popped with and
    the pass stops there, the rest of the queue untouched; a stale or
    invalid entry is dropped and the pass goes on with the rest; an admitted
    entry is sent as an event carrying the sender's validator and the pass
    goes on with the rest. Over the whole pass the entries are popped in
    descending order of priority. The pass ends with the queue empty or
    [isFuture] set, and [isFuture] is set exactly when a future entry was
    met. *)
Theorem drain_pass c (sender : Validator) q :
  match prque.Pop q with
  | None => q = [] /\ drain c sender q = start []
  | Some (m, prio, rest) =>
      (forall e, e ∈ q -> e.2 <= prio) /\
      q ≡ₚ (m, prio) :: rest /\
      match classify c m with
      | Some errFutureMessage =>
          drain c sender q =
            {| backlog := prque.Push rest m prio; isFuture := true; sent := [];
               pops := [(m, prio, Some errFutureMessage)] |}
      | Some err =>
          drain c sender q =
            extend [] [(m, prio, Some err)] (drain c sender rest)
      | None =>
          drain c sender q =
            extend [{| src := sender; msg := m |}] [(m, prio, None)]
              (drain c sender rest)
      end
  end /\
  StronglySorted (fun a b => b.1.2 <= a.1.2) (pops (drain c sender q)) /\
  (backlog (drain c sender q) = [] \/ isFuture (drain c sender q) = true) /\
  (isFuture (drain c sender q) = true <->
     exists m prio, (m, prio, Some errFutureMessage) ∈ pops (drain c sender q)).
Proof.
  split; [|split; [apply pops_descending|split]].
  - destruct (prque.Pop q) as [[[m prio] rest]|] eqn:P.
    + split; [by eapply Pop_top|]. split; [by eapply Pop_perm|].
      destruct (classify c m) as [err|] eqn:C.
      * destruct err.
        -- by eapply drain_skip.
        -- by eapply drain_future.
        -- by eapply drain_skip.
      * by eapply drain_post.
    + apply Pop_None in P. by subst q.
  - pose proof (drain_finished c sender q) as F. unfold finished in F.
    apply orb_true_iff in F as [F|F]; [left|by right].
    by apply Empty_true.
  - apply isFuture_iff.
Qed.

(** C9. Drain termination bound: the loop over a queue of N entries comes
    to its end (its condition is false) within N iterations, each of which
    pops once: no more than N pops are made, and more fuel than N changes
    nothing. Every iteration either takes its entry out of the queue for
    good, or pushes it back and sets [isFuture], which ends the loop. *)
Theorem drain_terminates c (sender : Validator) q :
  finished (drain c sender q) = true /\
  (length (pops (drain c sender q)) <= length q)%nat /\
  (forall fuel, (length q <= fuel)%nat ->
     loop c sender fuel (start q) = drain c sender q) /\
  (forall st m prio rest,
     prque.Pop (backlog st) = Some (m, prio, rest) ->
     (backlog (body c sender st) = rest /\
      isFuture (body c sender st) = isFuture st) \/
     (backlog (body c sender st) = prque.Push rest m prio /\
      isFuture (body c sender st) = true)).
Proof.
  split; [apply drain_finished|].
  split; [apply drain_pops_length|].
  split; [intros fuel L; by apply loop_enough|].
  intros st m prio rest P. unfold body. rewrite P.
  destruct (classify c m) as [err|]; [|by left].
  destruct (decide (err = errFutureMessage)); [by right|by left].
Qed.

(** The view extracted from a legacy entry is the decoded one, or stays
    the zero [View]. *)
Lemma itemView_legacy m :
  itemView (Legacy m) = default zeroView (decoded m).
Proof.
  unfold itemView, decoded.
  destruct (Code m =? msgPreprepare).
  - by destruct (decodePreprepare (Msg m)).
  - destruct (Code m =? msgRoundChange).
    + by destruct (decodeRoundChange (Msg m)).
    + by destruct (decodeSubject (Msg m)).
Qed.

(** C10. Undecodable entries cannot stall a drain: for a legacy entry
    whose payload does not decode, the extracted view stays the zero view,
    [checkMessage] judges it invalid, and the pass that pops it drops it and
    goes on with the rest of the queue: the entry is not pushed back, not
    sent, and the pass does not stop at it. *)
Theorem undecodable_dropped (m : message) :
  decoded m = None ->
  itemView (Legacy m) = zeroView /\
  (forall c, classify c (Legacy m) = Some errInvalidMessage) /\
  (forall c sender q prio rest,
     prque.Pop q = Some (Legacy m, prio, rest) ->
     sent (drain c sender q) = sent (drain c sender rest) /\
     backlog (drain c sender q) = backlog (drain c sender rest) /\
     isFuture (drain c sender q) = isFuture (drain c sender rest)) /\
  (forall c sender q ev, ev ∈ sent (drain c sender q) -> msg ev <> Legacy m) /\
  (forall c sender q prio,
     (Legacy m, prio, Some errFutureMessage) ∉ pops (drain c sender q)).
Proof.
  intros D.
  assert (V : itemView (Legacy m) = zeroView).
  { rewrite itemView_legacy. by rewrite D. }
  assert (C : forall c, classify c (Legacy m) = Some errInvalidMessage).
  { intros c. unfold classify. rewrite V. by apply checkMessage_malformed. }
  split; [done|]. split; [done|]. split; [|split].
  - intros c sender q prio rest P.
    by rewrite (drain_skip c sender q _ _ _ _ P (C c)).
  - intros c sender q ev Hin E.
    apply sent_sound in Hin as (_ & A & _). rewrite E, C in A. done.
  - intros c sender q prio Hin.
    apply pops_sound in Hin as (_ & E). by rewrite C in E.
Qed.
End DrainClaims.

(** ** The whole pass *)

Section PassFacts.
Context `{MsgCodes} `{Decoder} `{prque.TieBreak item}.
Implicit Types (c : core) (q : list (item * Z)).

(** The verdicts, and so the passes, read the state and the current view
    of the engine and nothing else of it. *)
Lemma checkMessage_ext c c' code view :
  state c = state c' -> current c = current c' ->
  checkMessage c code view = checkMessage c' code view.
Proof. intros S V. unfold checkMessage, currentView. by rewrite S, V. Qed.

Lemma body_ext c c' sender st :
  state c = state c' -> current c = current c' ->
  body c sender st = body c' sender st.
Proof.
  intros S V. unfold body, classify.
  destruct (prque.Pop (backlog st)) as [[[m prio] rest]|]; [|done].
  by rewrite (checkMessage_ext c c' _ _ S V).
Qed.

Lemma drain_ext c c' sender q :
  state c = state c' -> current c = current c' ->
  drain c sender q = drain c' sender q.
Proof.
  intros S V. unfold drain. generalize (start q) as st.
  induction (length q) as [|n IH]; intros st; simpl; [done|].
  destruct (prque.Empty (backlog st) || isFuture st); [done|].
  by rewrite (body_ext c c' _ _ S V), IH.
Qed.

Lemma senderEvents_ext c b kv :
  senderEvents (withBacklogs c b) kv = senderEvents c kv.
Proof.
  unfold senderEvents, GetByAddress. simpl.
  destruct (valSet c kv.1); [|done]. by rewrite (drain_ext (withBacklogs c b) c).
Qed.

Lemma processSender_eq c acc kv :
  processSender c acc kv =
    (match senderQueue c kv with
     | Some q' => <[kv.1 := q']> acc.1
     | None => delete kv.1 acc.1
     end, acc.2 ++ senderEvents c kv).
Proof.
  unfold processSender, senderQueue, senderEvents.
  destruct (GetByAddress c kv.1); [done|]. by rewrite app_nil_r.
Qed.

(** The [range] loop over keys that are pairwise distinct: the events are
    those of the keys in turn, and each key ends with its own result. *)
Lemma foldl_processSender c (l : list (Address * list (item * Z))) m evs :
  NoDup l.*1 ->
  (foldl (processSender c) (m, evs) l).2 = evs ++ (l ≫= senderEvents c) /\
  forall a,
    (foldl (processSender c) (m, evs) l).1 !! a =
      match (list_to_map l : gmap Address (list (item * Z))) !! a with
      | Some q => senderQueue c (a, q)
      | None => m !! a
      end.
Proof.
  revert m evs. induction l as [|[a0 q0] l IH]; intros m evs ND.
  - simpl. split; [by rewrite app_nil_r|]. intros a. by rewrite lookup_empty.
  - simpl in ND. apply NoDup_cons in ND as [Hnot ND].
    simpl foldl. rewrite processSender_eq. simpl fst. simpl snd.
    destruct (IH (match senderQueue c (a0, q0) with
                  | Some q' => <[a0 := q']> m
                  | None => delete a0 m
                  end) (evs ++ senderEvents c (a0, q0)) ND) as [E L].
    split.
    + rewrite E. simpl. by rewrite <- app_assoc.
    + intros a. rewrite L. simpl.
      destruct (decide (a = a0)) as [->|Hne].
      * rewrite lookup_insert_eq.
        rewrite (not_elem_of_list_to_map_1 l a0 Hnot).
        destruct (senderQueue c (a0, q0));
          [by rewrite lookup_insert_eq | by rewrite lookup_delete_eq].
      * rewrite lookup_insert_ne by done.
        destruct (list_to_map l !! a); [done|].
        destruct (senderQueue c (a0, q0));
          [by rewrite lookup_insert_ne | by rewrite lookup_delete_ne].
Qed.

Lemma processBacklog_events c :
  (processBacklog c).2 = map_to_list (backlogs c) ≫= senderEvents c.
Proof.
  unfold processBacklog. simpl.
  by destruct (foldl_processSender c (map_to_list (backlogs c)) (backlogs c) []
                 (NoDup_fst_map_to_list _)) as [-> _].
Qed.

Lemma processBacklog_lookup c a :
  backlogs (processBacklog c).1 !! a =
    match backlogs c !! a with
    | Some q => senderQueue c (a, q)
    | None => None
    end.
Proof.
  unfold processBacklog. simpl.
  destruct (foldl_processSender c (map_to_list (backlogs c)) (backlogs c) []
              (NoDup_fst_map_to_list _)) as [_ ->].
  rewrite list_to_map_to_list. by destruct (backlogs c !! a).
Qed.

End PassFacts.

Section PassClaims.
Context `{MsgCodes} `{Decoder} `{prque.TieBreak item}.
Implicit Types (c : core) (q : list (item * Z)).

(** C8. Validator-removal purge: when the validator set does not know a
    sender address, the pass deletes the whole queue kept under that
    address and sends no event for it, whatever the verdicts on its entries
    would have been: the iteration for that key only deletes the key, the
    key is absent after the pass, the events of the pass are those of a
    pass over the backlog without that key, and every event of the pass
    comes from the queue of another, known sender. *)
Theorem removed_validator_purged c (addr : Address) :
  GetByAddress c addr = None ->
  (forall acc q, processSender c acc (addr, q) = (delete addr acc.1, acc.2)) /\
  backlogs (processBacklog c).1 !! addr = None /\
  (processBacklog c).2 ≡ₚ
    (processBacklog (withBacklogs c (delete addr (backlogs c)))).2 /\
  (forall ev, ev ∈ (processBacklog c).2 ->
     exists a q, a <> addr /\ backlogs c !! a = Some q /\
                 GetByAddress c a = Some (src ev) /\
                 ev ∈ sent (drain c (src ev) q)).
Proof.
  intros G.
  assert (E : forall q, senderEvents c (addr, q) = []).
  { intros q. unfold senderEvents. simpl. by rewrite G. }
  split; [|split; [|split]].
  - intros acc q. unfold processSender. simpl. by rewrite G.
  - rewrite processBacklog_lookup.
    destruct (backlogs c !! addr); [|done].
    unfold senderQueue. simpl. by rewrite G.
  - rewrite !processBacklog_events. simpl.
    rewrite (list_bind_ext _ (senderEvents c) _ _
               (senderEvents_ext c _) eq_refl).
    destruct (backlogs c !! addr) as [q|] eqn:L.
    + rewrite <- (map_to_list_delete _ _ _ L).
      rewrite bind_cons, E. done.
    + by rewrite (delete_id _ _ L).
  - intros ev Hin. rewrite processBacklog_events in Hin.
    apply list_elem_of_bind in Hin as ([a q] & Hev & Hkv).
    apply elem_of_map_to_list in Hkv.
    unfold senderEvents in Hev. simpl in Hev.
    destruct (GetByAddress c a) as [s|] eqn:Ga.
    2: { by apply elem_of_nil in Hev. }
    destruct (sent_sound _ _ _ _ Hev) as (S & _).
    exists a, q. rewrite S. repeat split; try done.
    intros ->. congruence.
Qed.

(** The two insertion paths change nothing but the queue of the sender. *)
Lemma storeQBFTBacklog_lookup c m c' a :
  storeQBFTBacklog c m = Some c' ->
  a <> qbftSource m -> backlogs c' !! a = backlogs c !! a.
Proof.
  unfold storeQBFTBacklog. intros S Hne.
  destruct (decide (qbftSource m = address c)); [by simplify_eq|].
  destruct (toPriority (qbftCode m) (qbftView m)); simpl in S; [|done].
  simplify_eq. simpl. by rewrite lookup_insert_ne.
Qed.

Lemma storeBacklog_lookup c m sender c' a :
  storeBacklog c m sender = Some c' ->
  a <> valAddress sender -> backlogs c' !! a = backlogs c !! a.
Proof.
  unfold storeBacklog. intros S Hne.
  destruct (decide (valAddress sender = address c)); [by simplify_eq|].
  match type of S with (?x ≫= _) = _ => destruct x end; simpl in S; [|done].
  simplify_eq. simpl. by rewrite lookup_insert_ne.
Qed.

Lemma storeQBFTBacklog_address c m c' :
  storeQBFTBacklog c m = Some c' -> address c' = address c.
Proof.
  unfold storeQBFTBacklog. intros S.
  destruct (decide (qbftSource m = address c)); [by simplify_eq|].
  destruct (toPriority (qbftCode m) (qbftView m)); simpl in S; [|done].
  by simplify_eq.
Qed.

Lemma storeBacklog_address c m sender c' :
  storeBacklog c m sender = Some c' -> address c' = address c.
Proof.
  unfold storeBacklog. intros S.
  destruct (decide (valAddress sender = address c)); [by simplify_eq|].
  match type of S with (?x ≫= _) = _ => destruct x end; simpl in S; [|done].
  by simplify_eq.
Qed.

(** No operation puts a queue under the node's own address. *)
Lemma step_no_self c o c' :
  step c o = Some c' ->
  backlogs c !! address c = None ->
  backlogs c' !! address c' = None.
Proof.
  destruct o as [m|m sender| |st v]; simpl; intros S I.
  - rewrite (storeQBFTBacklog_address _ _ _ S).
    destruct (decide (qbftSource m = address c)) as [E|Hne].
    + unfold storeQBFTBacklog in S. rewrite decide_True in S by done.
      by simplify_eq.
    + by rewrite (storeQBFTBacklog_lookup _ _ _ _ S) by done.
  - rewrite (storeBacklog_address _ _ _ _ S).
    destruct (decide (valAddress sender = address c)) as [E|Hne].
    + unfold storeBacklog in S. rewrite decide_True in S by done.
      by simplify_eq.
    + by rewrite (storeBacklog_lookup _ _ _ _ _ S) by done.
  - injection S as <-.
    change (backlogs (processBacklog c).1 !! address c = None).
    by rewrite processBacklog_lookup, I.
  - by simplify_eq.
Qed.

(** C7. No self-deferral: a message whose sender is the node's own
    address leaves the engine, and so the backlog map, exactly as it was,
    through [storeQBFTBacklog] and through [storeBacklog]: nothing is
    inserted and no queue is created under the node's own address. Hence a
    backlog without a queue under that address never gets one, whatever is
    stored, drained or advanced. *)
Theorem no_self_deferral :
  (forall c (m : QBFTMessage),
     qbftSource m = address c -> storeQBFTBacklog c m = Some c) /\
  (forall c (m : message) (sender : Validator),
     valAddress sender = address c -> storeBacklog c m sender = Some c) /\
  (forall c os c',
     backlogs c !! address c = None ->
     run c os = Some c' ->
     backlogs c' !! address c' = None).
Proof.
  split; [|split].
  - intros c m E. unfold storeQBFTBacklog. by rewrite decide_True.
  - intros c m sender E. unfold storeBacklog. by rewrite decide_True.
  - intros c os. revert c. induction os as [|o os IH]; intros c c' I R.
    + simpl in R. by simplify_eq.
    + simpl in R. destruct (step c o) as [c1|] eqn:S; simpl in R; [|done].
      eapply IH; [|exact R]. by eapply step_no_self.
Qed.
End PassClaims.

(** ** The priority key *)

(** The conversion on a few numbers: exact below [2^24], ties to even
    above, and the two keys that meet in C2. *)
Example float32_small : float32 16777215 = 16777215.
Proof. reflexivity. Qed.
Example float32_tie_down : float32 16777217 = 16777216.
Proof. reflexivity. Qed.
Example float32_tie_up : float32 16777219 = 16777220.
Proof. reflexivity. Qed.
Example float32_max : float32 (2 ^ 64 - 1) = 2 ^ 64.
Proof. vm_compute. reflexivity. Qed.
Example float32_a : float32 134219001 = 134219008.
Proof. vm_compute. reflexivity. Qed.
Example float32_b : float32 134219011 = 134219008.
Proof. vm_compute. reflexivity. Qed.


Section PriorityFacts.
Context `{MsgCodes}.

Lemma rank_bounds code : 0 <= rank code <= 3.
Proof.
  unfold rank, msgPriority.
  rewrite !lookup_insert. repeat case_decide; simpl; try lia.
  rewrite lookup_singleton. case_decide; simpl; lia.
Qed.

Lemma wrap64_small x : 0 <= x < 2 ^ 64 -> wrap64 x = x.
Proof. intros. unfold wrap64. by apply Z.mod_small. Qed.

Lemma Uint64_small x : 0 <= x < 2 ^ 64 -> Uint64 x = x.
Proof. intros. unfold Uint64. rewrite Z.abs_eq by lia. by apply wrap64_small. Qed.

Lemma float32_exact n : n < 2 ^ 24 -> float32 n = n.
Proof. intros L. unfold float32. by apply Z.ltb_lt in L as ->. Qed.

(** Where nothing wraps and nothing is rounded, the key is the plain
    positional packing of lines 244-247. *)
Lemma packedKey_exact code s r :
  0 <= s -> 0 <= r -> s * 1000 + r * 10 + 3 < 2 ^ 24 ->
  packedKey code s r = s * 1000 + r * 10 + rank code.
Proof.
  intros Hs Hr B. pose proof (rank_bounds code) as K.
  assert (2 ^ 24 < 2 ^ 64) by done.
  unfold packedKey.
  rewrite !Uint64_small by lia.
  rewrite (wrap64_small (s * 1000)) by lia.
  rewrite (wrap64_small (r * 10)) by lia.
  rewrite (wrap64_small (rank code)) by lia.
  rewrite (wrap64_small (s * 1000 + r * 10)) by lia.
  apply wrap64_small. lia.
Qed.

Lemma toPriority_exact code s r :
  code <> msgRoundChange ->
  0 <= s -> 0 <= r -> s * 1000 + r * 10 + 3 < 2 ^ 24 ->
  toPriority code (mkView s r) = Some (- (s * 1000 + r * 10 + rank code)).
Proof.
  intros N Hs Hr B. unfold toPriority. apply Z.eqb_neq in N as ->. simpl.
  rewrite packedKey_exact by done.
  pose proof (rank_bounds code). by rewrite float32_exact by lia.
Qed.

(** Within those bounds the key is strictly monotonic in the view:
    sequence dominates round dominates rank. *)
Lemma toPriority_exact_monotonic code1 code2 s1 r1 s2 r2 :
  code1 <> msgRoundChange -> code2 <> msgRoundChange ->
  0 <= s1 -> 0 <= r1 <= 99 -> 0 <= r2 <= 99 ->
  s2 * 1000 + r2 * 10 + 3 < 2 ^ 24 ->
  viewLt (s1, r1) (s2, r2) ->
  exists p1 p2,
    toPriority code1 (mkView s1 r1) = Some p1 /\
    toPriority code2 (mkView s2 r2) = Some p2 /\
    p2 < p1.
Proof.
  intros N1 N2 Hs1 Hr1 Hr2 B L. unfold viewLt in L. simpl in L.
  pose proof (rank_bounds code1). pose proof (rank_bounds code2).
  rewrite (toPriority_exact code1 s1 r1) by (try done; lia).
  rewrite (toPriority_exact code2 s2 r2) by (try done; lia).
  eexists _, _. split; [done|]. split; [done|]. lia.
Qed.

(** The key of a round change is a function of the sequence alone. *)
Lemma toPriority_round_change s r r' :
  toPriority msgRoundChange (mkView s r) = toPriority msgRoundChange (mkView s r').
Proof. unfold toPriority. by rewrite Z.eqb_refl. Qed.
End PriorityFacts.

(** C2. Priority-key monotonicity, at an input where the code departs from
    it: two pre-prepares for sequence 134219, rounds 0 and 1 (both within
    [0,99]), pack to the keys 134219001 and 134219011; the conversion to
    [float32] rounds both to 134219008, so the entry with the strictly
    smaller view receives the same priority, not a strictly higher one. *)
Theorem toPriority_collision :
  viewLt (134219, 0) (134219, 1) /\
  @packedKey iotaCodes (@msgPreprepare iotaCodes) 134219 0 = 134219001 /\
  @packedKey iotaCodes (@msgPreprepare iotaCodes) 134219 1 = 134219011 /\
  @toPriority iotaCodes (@msgPreprepare iotaCodes) (mkView 134219 0)
    = Some (-134219008) /\
  @toPriority iotaCodes (@msgPreprepare iotaCodes) (mkView 134219 1)
    = Some (-134219008).
Proof.
  split; [right; simpl; lia|].
  repeat split; vm_compute; reflexivity.
Qed.

(** ** The order of replay *)

Section ReplayOrder.
Context `{MsgCodes} `{Decoder} `{prque.TieBreak item}.
Implicit Types (c : core) (q : list (item * Z)).

(** A message that is not a round change is admitted for the current view
    only. *)
Lemma checkMessage_admit_current c code view :
  code <> msgRoundChange ->
  checkMessage c code (Some view) = None ->
  fields view = Some (currentView c).
Proof.
  intros N A. destruct (fields view) as [v|] eqn:F.
  2: { by rewrite checkMessage_malformed in A. }
  rewrite (ordinary_arm _ _ _ _ N F) in A.
  destruct (Cmp v (currentView c) >? 0) eqn:G; [done|].
  destruct (Cmp v (currentView c) <? 0) eqn:L; [done|].
  destruct (viewLt_total v (currentView c)) as [V|[->|V]]; [|done|].
  - apply Cmp_lt in V. congruence.
  - apply Cmp_gt in V. congruence.
Qed.

(** A round change is admitted for the current sequence and a round not
    below the current one. *)
Lemma checkMessage_admit_round_change c view :
  checkMessage c msgRoundChange (Some view) = None ->
  exists r, fields view = Some ((currentView c).1, r) /\ (currentView c).2 <= r.
Proof.
  intros A. destruct (fields view) as [[s r]|] eqn:F.
  2: { by rewrite checkMessage_malformed in A. }
  rewrite (round_change_arm _ _ _ F) in A. simpl in A.
  destruct (bigCmp s (currentView c).1 >? 0) eqn:G; [done|].
  destruct (Cmp (s, r) (currentView c) <? 0) eqn:L; [done|].
  assert (~ (currentView c).1 < s) by (intros X; apply bigCmp_gt in X; congruence).
  assert (NL : ~ viewLt (s, r) (currentView c))
    by (intros X; apply Cmp_lt in X; congruence).
  unfold viewLt in NL. simpl in NL.
  assert (s = (currentView c).1) as -> by lia.
  exists r. split; [done|lia].
Qed.

(** Every event of a pass carries the current sequence and a round not
    below the current one; unless it is a round change, the current round. *)
Lemma sent_view c sender q ev :
  ev ∈ sent (drain c sender q) ->
  exists r,
    fields (itemView (msg ev)) = Some ((currentView c).1, r) /\
    (currentView c).2 <= r /\
    (itemCode (msg ev) <> msgRoundChange -> r = (currentView c).2).
Proof.
  intros Hin. apply sent_sound in Hin as (_ & A & _). unfold classify in A.
  destruct (decide (itemCode (msg ev) = msgRoundChange)) as [E|N].
  - rewrite E in A. apply checkMessage_admit_round_change in A as (r & F & L).
    exists r. by repeat split.
  - apply checkMessage_admit_current in A; [|done].
    exists (currentView c).2. split; [|split; [lia|done]].
    rewrite A. by destruct (currentView c).
Qed.

(** C1, amended. Per-sender replay ordering, round changes apart. Take an
    event [e1] sent by a pass and an event [e2] sent by the same pass or by a
    pass run when the current view is not below that of the first. The view
    of [e2] is never of a lower sequence than that of [e1]; and unless [e1]
    is a round change, the view of [e2] is not below that of [e1] in the
    order on views. So a message with the higher view is sent ahead of one
    with the lower view only if it is a round change of the same sequence. *)
Theorem replay_order_except_round_change c1 c2 (sender1 sender2 : Validator)
    q1 q2 (e1 e2 : backlogEvent) (v1 v2 : Z * Z) :
  ~ viewLt (currentView c2) (currentView c1) ->
  e1 ∈ sent (drain c1 sender1 q1) ->
  e2 ∈ sent (drain c2 sender2 q2) ->
  fields (itemView (msg e1)) = Some v1 ->
  fields (itemView (msg e2)) = Some v2 ->
  ~ v2.1 < v1.1 /\
  (itemCode (msg e1) <> msgRoundChange -> ~ viewLt v2 v1) /\
  (viewLt v2 v1 -> itemCode (msg e1) = msgRoundChange /\ v1.1 = v2.1).
Proof.
  intros M H1' H2' F1 F2.
  apply sent_view in H1' as (r1 & E1 & L1 & O1).
  apply sent_view in H2' as (r2 & E2 & L2 & O2).
  rewrite F1 in E1. rewrite F2 in E2. simplify_eq.
  unfold viewLt in *. simpl in *.
  split; [lia|]. split.
  - intros N. specialize (O1 N). lia.
  - intros V. split; [|lia].
    destruct (decide (itemCode (msg e1) = msgRoundChange)) as [|N]; [done|].
    specialize (O1 N). lia.
Qed.
End ReplayOrder.

(** ** The claims on examples *)

Abbreviation check0 := (@checkMessage iotaCodes).
Abbreviation drain0 := (@drain iotaCodes twoByteDecoder oldestFirst).
Abbreviation process0 := (@processBacklog iotaCodes twoByteDecoder oldestFirst).
Abbreviation run0 := (@run iotaCodes twoByteDecoder oldestFirst).

(** The two messages of the scenario are future at view (4, 0), and storing
    them builds [queue2]. *)
Example scenario_deferred :
  check0 (node StateAcceptRequest 4 0 ∅) 0 (Some (mkView 5 0)) = Some errFutureMessage /\
  check0 (node StateAcceptRequest 4 0 ∅) 3 (Some (mkView 5 3)) = Some errFutureMessage /\
  (run0 (node StateAcceptRequest 4 0 ∅)
     [StoreQBFT preprepare50; StoreQBFT roundChange53; Advance StateAcceptRequest (5, 0)])
    = Some (node StateAcceptRequest 5 0 {[ 2%N := queue2 ]}).
Proof. repeat split; vm_compute; reflexivity. Qed.

(** At view (5, 0) the pass sends the round change for (5, 3) first and the
    pre-prepare for (5, 0) second. *)
Example scenario_drained :
  sent (drain0 (node StateAcceptRequest 5 0 {[ 2%N := queue2 ]}) validator2 queue2)
  = [ {| src := validator2; msg := QBFT roundChange53 |};
      {| src := validator2; msg := QBFT preprepare50 |} ].
Proof. vm_compute. reflexivity. Qed.

(** C1, as stated, fails: the pass of the scenario sends the message with
    view (5, 3) before the message with view (5, 0) of the same sender. *)
Lemma replay_order_counterexample :
  ~ @replayInViewOrder iotaCodes twoByteDecoder oldestFirst
      (node StateAcceptRequest 5 0 {[ 2%N := queue2 ]}) validator2 queue2.
Proof.
  intros Law.
  apply (Law 0%nat 1%nat
           {| src := validator2; msg := QBFT roundChange53 |}
           {| src := validator2; msg := QBFT preprepare50 |}
           (5, 3) (5, 0)).
  - lia.
  - vm_compute. reflexivity.
  - vm_compute. reflexivity.
  - reflexivity.
  - reflexivity.
  - right. simpl. lia.
Qed.

(** The same across passes: with a commit for (5, 0) in place of the
    pre-prepare, the pass in state AcceptRequest sends the round change for
    (5, 3) and pushes the commit back; a later pass in state Prepared sends
    the commit. *)
Example scenario_later_pass :
  sent (drain0 (node StateAcceptRequest 5 0 ∅) validator2 queue2')
    = [ {| src := validator2; msg := QBFT roundChange53 |} ] /\
  backlog (drain0 (node StateAcceptRequest 5 0 ∅) validator2 queue2')
    = [(QBFT commit50, -5002)] /\
  sent (drain0 (node StatePrepared 5 0 ∅) validator2 [(QBFT commit50, -5002)])
    = [ {| src := validator2; msg := QBFT commit50 |} ].
Proof. repeat split; vm_compute; reflexivity. Qed.

(** Early stop: with a pre-prepare and a commit for (5, 1) and a prepare
    for (5, 2) queued, the pass at view (5, 1) in state AcceptRequest sends
    the pre-prepare, pushes the commit back and never pops the prepare. *)
Example scenario_early_stop :
  drain0 (node StateAcceptRequest 5 1 ∅) validator2
    [ (QBFT {| qbftCode := 1; qbftView := mkView 5 2; qbftSource := 2%N |}, -5023);
      (QBFT {| qbftCode := 2; qbftView := mkView 5 1; qbftSource := 2%N |}, -5012);
      (QBFT preprepare51, -5011) ]
  = {| backlog :=
         [ (QBFT {| qbftCode := 1; qbftView := mkView 5 2; qbftSource := 2%N |}, -5023);
           (QBFT {| qbftCode := 2; qbftView := mkView 5 1; qbftSource := 2%N |}, -5012) ];
       isFuture := true;
       sent := [ {| src := validator2; msg := QBFT preprepare51 |} ];
       pops :=
         [ (QBFT preprepare51, -5011, None);
           (QBFT {| qbftCode := 2; qbftView := mkView 5 1; qbftSource := 2%N |}, -5012,
            Some errFutureMessage) ] |}.
Proof. vm_compute. reflexivity. Qed.

(** The state table on the view (5, 0), in each of the four states. *)
Lemma checkMessage_state_table_witness :
  @MsgCodesRanked iotaCodes /\
  fields (mkView 5 0) = Some (5, 0) /\
  (check0 (node StateAcceptRequest 5 0 ∅) 0 (Some (mkView 5 0)) = None /\
   check0 (node StateAcceptRequest 5 0 ∅) 1 (Some (mkView 5 0)) = Some errFutureMessage /\
   check0 (node StateAcceptRequest 5 0 ∅) 2 (Some (mkView 5 0)) = Some errFutureMessage) /\
  (check0 (node StatePreprepared 5 0 ∅) 1 (Some (mkView 5 0)) = None /\
   check0 (node StatePreprepared 5 0 ∅) 0 (Some (mkView 5 0)) = Some errInvalidMessage /\
   check0 (node StatePreprepared 5 0 ∅) 2 (Some (mkView 5 0)) = Some errFutureMessage) /\
  (check0 (node StatePrepared 5 0 ∅) 2 (Some (mkView 5 0)) = None /\
   check0 (node StatePrepared 5 0 ∅) 0 (Some (mkView 5 0)) = Some errInvalidMessage /\
   check0 (node StatePrepared 5 0 ∅) 1 (Some (mkView 5 0)) = Some errInvalidMessage) /\
  check0 (node StateCommitted 5 0 ∅) 2 (Some (mkView 5 0)) = Some errInvalidMessage.
Proof.
  assert (R : @MsgCodesRanked iotaCodes) by (constructor; simpl; lia).
  split; [exact R|]. split; [reflexivity|].
  split; [|split; [|split]].
  - apply (@checkMessage_state_table iotaCodes R
             (node StateAcceptRequest 5 0 ∅) (mkView 5 0)). reflexivity.
  - apply (@checkMessage_state_table iotaCodes R
             (node StatePreprepared 5 0 ∅) (mkView 5 0)). reflexivity.
  - apply (@checkMessage_state_table iotaCodes R
             (node StatePrepared 5 0 ∅) (mkView 5 0)). reflexivity.
  - apply (@checkMessage_state_table iotaCodes R
             (node StateCommitted 5 0 ∅) (mkView 5 0)); [reflexivity|].
    simpl. lia.
Defined.

(** A commit for view (4, 3) reaching a node at view (5, 0). *)
Lemma checkMessage_below_current_witness :
  fields (mkView 4 3) = Some (4, 3) /\
  viewLt (4, 3) (currentView (node StateAcceptRequest 5 0 ∅)) /\
  (check0 (node StateAcceptRequest 5 0 ∅) 2 (Some (mkView 4 3)) = Some errOldMessage \/
   check0 (node StateAcceptRequest 5 0 ∅) 2 (Some (mkView 4 3)) = Some errInvalidMessage) /\
  check0 (node StateAcceptRequest 5 0 ∅) 2 (Some (mkView 4 3)) <> Some errFutureMessage.
Proof.
  assert (L : viewLt (4, 3) (currentView (node StateAcceptRequest 5 0 ∅))).
  { left. simpl. lia. }
  split; [reflexivity|]. split; [exact L|].
  apply (@checkMessage_below_current iotaCodes
           (node StateAcceptRequest 5 0 ∅) 2 (mkView 4 3) (4, 3)).
  - reflexivity.
  - exact L.
Defined.

(** A garbled prepare queued ahead of a good one for view (5, 0): the pass
    in state Preprepared drops the first and sends the second. *)
Lemma undecodable_dropped_witness :
  @decoded iotaCodes twoByteDecoder garbled = None /\
  @itemView iotaCodes twoByteDecoder (Legacy garbled) = zeroView /\
  @classify iotaCodes twoByteDecoder (node StatePreprepared 5 0 ∅) (Legacy garbled)
    = Some errInvalidMessage /\
  sent (drain0 (node StatePreprepared 5 0 ∅) validator2
          [(Legacy garbled, -5003); (Legacy prepare50, -5003)])
  = sent (drain0 (node StatePreprepared 5 0 ∅) validator2 [(Legacy prepare50, -5003)]).
Proof.
  assert (D : @decoded iotaCodes twoByteDecoder garbled = None) by reflexivity.
  destruct (@undecodable_dropped iotaCodes twoByteDecoder oldestFirst garbled D)
    as (V & C & P & _).
  split; [exact D|]. split; [exact V|]. split; [apply C|].
  apply (P (node StatePreprepared 5 0 ∅) validator2
           [(Legacy garbled, -5003); (Legacy prepare50, -5003)] (-5003)
           [(Legacy prepare50, -5003)]).
  vm_compute. reflexivity.
Defined.

(** Address 9 is no validator: its queue goes, and only validator 2 is
    served. *)
Lemma removed_validator_purged_witness :
  GetByAddress (node StateAcceptRequest 5 0 {[ 2%N := queue2; 9%N := queue2 ]}) 9%N = None /\
  backlogs (process0 (node StateAcceptRequest 5 0 {[ 2%N := queue2; 9%N := queue2 ]})).1
    !! 9%N = None.
Proof.
  assert (G : GetByAddress
                (node StateAcceptRequest 5 0 {[ 2%N := queue2; 9%N := queue2 ]}) 9%N = None)
    by reflexivity.
  split; [exact G|].
  apply (@removed_validator_purged iotaCodes twoByteDecoder oldestFirst _ 9%N G).
Defined.

Example removed_validator_events :
  (process0 (node StateAcceptRequest 5 0 {[ 2%N := queue2; 9%N := queue2 ]})).2
  = [ {| src := validator2; msg := QBFT roundChange53 |};
      {| src := validator2; msg := QBFT preprepare50 |} ].
Proof. vm_compute. reflexivity. Qed.

(** A prepare for (5, 0) sent by a pass at view (5, 0), a pre-prepare for
    (5, 1) sent by a pass at view (5, 1). *)
Lemma replay_order_except_round_change_witness :
  ~ viewLt (currentView (node StateAcceptRequest 5 1 ∅))
      (currentView (node StatePreprepared 5 0 ∅)) /\
  {| src := validator2; msg := Legacy prepare50 |}
    ∈ sent (drain0 (node StatePreprepared 5 0 ∅) validator2 [(Legacy prepare50, -5003)]) /\
  {| src := validator2; msg := QBFT preprepare51 |}
    ∈ sent (drain0 (node StateAcceptRequest 5 1 ∅) validator2 [(QBFT preprepare51, -5011)]) /\
  fields (@itemView iotaCodes twoByteDecoder (Legacy prepare50)) = Some (5, 0) /\
  fields (@itemView iotaCodes twoByteDecoder (QBFT preprepare51)) = Some (5, 1) /\
  ~ 5 < 5 /\
  (itemCode (Legacy prepare50) <> @msgRoundChange iotaCodes -> ~ viewLt (5, 1) (5, 0)) /\
  (viewLt (5, 1) (5, 0) ->
     itemCode (Legacy prepare50) = @msgRoundChange iotaCodes /\ 5 = 5).
Proof.
  assert (M : ~ viewLt (currentView (node StateAcceptRequest 5 1 ∅))
                (currentView (node StatePreprepared 5 0 ∅))).
  { unfold viewLt. simpl. lia. }
  assert (I1 : {| src := validator2; msg := Legacy prepare50 |}
    ∈ sent (drain0 (node StatePreprepared 5 0 ∅) validator2 [(Legacy prepare50, -5003)])).
  { vm_compute. left. }
  assert (I2 : {| src := validator2; msg := QBFT preprepare51 |}
    ∈ sent (drain0 (node StateAcceptRequest 5 1 ∅) validator2 [(QBFT preprepare51, -5011)])).
  { vm_compute. left. }
  assert (F1 : fields (@itemView iotaCodes twoByteDecoder (Legacy prepare50))
               = Some (5, 0)) by reflexivity.
  assert (F2 : fields (@itemView iotaCodes twoByteDecoder (QBFT preprepare51))
               = Some (5, 1)) by reflexivity.
  split; [exact M|]. split; [exact I1|]. split; [exact I2|].
  split; [exact F1|]. split; [exact F2|].
  exact (@replay_order_except_round_change iotaCodes twoByteDecoder oldestFirst
           _ _ _ _ _ _ _ _ (5, 0) (5, 1) M I1 I2 F1 F2).
Defined.

(** * Further properties of the code *)

(** ** checkMessage: the verdicts from the other side *)

Section CheckFurther.
Context `{MsgCodes}.

(** X1. A message that is not a round change and whose well-formed view is
    above the current view is future, in every state (lines 52-54): ahead of
    the view, the state is not consulted. *)
Theorem checkMessage_above_current (c : core) (code : Z) (view : View) (v : Z * Z) :
  code <> msgRoundChange ->
  fields view = Some v ->
  viewLt (currentView c) v ->
  forall st, checkMessage (withState c st) code (Some view) = Some errFutureMessage.
Proof.
  intros N F L st.
  rewrite (ordinary_arm _ _ _ _ N F).
  change (currentView (withState c st)) with (currentView c).
  by apply Cmp_gt in L as ->.
Qed.

(** X2. What [checkMessage] admits: only a well-formed view of the current
    sequence whose round is not below the current round. If the message is
    not a round change, its view is the current view, and the state is not
    Committed. In particular nothing behind or ahead of the current sequence
    is ever admitted. *)
Theorem checkMessage_admits_only (c : core) (code : Z) (view : option View) :
  checkMessage c code view = None ->
  exists v r,
    view = Some v /\
    fields v = Some ((currentView c).1, r) /\
    (currentView c).2 <= r /\
    (code <> msgRoundChange ->
       r = (currentView c).2 /\ state c <> StateCommitted).
Proof.
  intros A. destruct view as [v|]; [|done].
  destruct (decide (code = msgRoundChange)) as [->|N].
  - apply checkMessage_admit_round_change in A as (r & F & L).
    exists v, r. by repeat split.
  - pose proof (checkMessage_admit_current _ _ _ N A) as F.
    exists v, (currentView c).2. split; [done|]. split.
    { rewrite F. by destruct (currentView c). }
    split; [lia|]. intros _. split; [done|].
    intros S. rewrite (checkMessage_current _ _ _ N F), S in A. done.
Qed.
End CheckFurther.

(** ** The drain: what becomes of the queued entries *)

Section DrainFurther.
Context `{MsgCodes} `{Decoder} `{prque.TieBreak item}.
Implicit Types (c : core) (q : list (item * Z)).

Lemma elem_of_removed (p : list (item * Z * option error)) (e : item * Z) :
  e ∈ removed p <->
  exists verdict, (e, verdict) ∈ p /\ verdict <> Some errFutureMessage.
Proof.
  unfold removed. rewrite list_elem_of_omap. split.
  - intros ([e' v] & Hin & E). simpl in E. exists v.
    destruct v as [[]|]; simplify_eq; done.
  - intros (v & Hin & N). exists (e, v). split; [done|]. simpl.
    destruct v as [[]|]; done.
Qed.

Lemma elem_of_posted sender (p : list (item * Z * option error)) ev :
  ev ∈ posted sender p <->
  exists prio, (msg ev, prio, None) ∈ p /\ src ev = sender.
Proof.
  unfold posted. rewrite list_elem_of_omap. split.
  - intros ([[m prio] v] & Hin & E). simpl in E.
    destruct v; simplify_eq. simpl. by exists prio.
  - intros (prio & Hin & S). exists (msg ev, prio, None). split; [done|].
    simpl. destruct ev. simpl in *. by subst.
Qed.

Lemma removed_all (p : list (item * Z * option error)) :
  Forall (fun x : item * Z * option error => x.2 <> Some errFutureMessage) p ->
  removed p = p.*1.
Proof.
  induction 1 as [|[e v] l Hx _ IH]; [done|].
  simpl in Hx. rewrite fmap_cons, <- IH.
  by destruct v as [[]|].
Qed.

(** The balance of a pass, by induction on its pops. *)
Lemma drain_balance c (sender : Validator) q :
  q ≡ₚ backlog (drain c sender q) ++ removed (pops (drain c sender q)) /\
  sent (drain c sender q) = posted sender (pops (drain c sender q)).
Proof.
  apply (drain_ind c sender (fun q st =>
    q ≡ₚ backlog st ++ removed (pops st) /\ sent st = posted sender (pops st))).
  - done.
  - intros q' m prio rest P C. simpl. split; [|done].
    rewrite app_nil_r, Push_perm. by apply Pop_perm.
  - intros q' m prio rest err P C N [IH1 IH2]. simpl. split.
    + unfold removed. simpl. fold (removed (pops (drain c sender rest))).
      destruct err; try done;
        rewrite (Pop_perm _ _ _ _ P), IH1 at 1; by rewrite Permutation_middle.
    + unfold posted. simpl. exact IH2.
  - intros q' m prio rest P C [IH1 IH2]. simpl. split.
    + unfold removed. simpl. fold (removed (pops (drain c sender rest))).
      rewrite (Pop_perm _ _ _ _ P), IH1 at 1. by rewrite Permutation_middle.
    + unfold posted. simpl. by rewrite IH2.
Qed.

Lemma backlog_subset c (sender : Validator) q e :
  e ∈ backlog (drain c sender q) -> e ∈ q.
Proof.
  intros Hin. destruct (drain_balance c sender q) as [B _].
  rewrite B. apply elem_of_app. by left.
Qed.

(** X3. A pass neither loses nor invents entries: the queue it was given is,
    as a multiset, the queue it leaves together with the entries it popped
    with a verdict other than future; the events it sends are those of the
    admitted pops, in the order of the pops; so the queue never grows. *)
Theorem drain_conserves c (sender : Validator) q :
  q ≡ₚ backlog (drain c sender q) ++ removed (pops (drain c sender q)) /\
  sent (drain c sender q) = posted sender (pops (drain c sender q)) /\
  length q = (length (backlog (drain c sender q))
              + length (removed (pops (drain c sender q))))%nat.
Proof.
  destruct (drain_balance c sender q) as [M1 M2]. split; [done|]. split; [done|].
  rewrite M1 at 1. by rewrite length_app.
Qed.

(** X4. A pass never drops and never sends an entry that is still future:
    every queued entry that [checkMessage] judges future at the time of the
    pass is in the queue after the pass, with the priority it had. *)
Theorem future_entries_kept c (sender : Validator) q (e : item * Z) :
  e ∈ q ->
  classify c e.1 = Some errFutureMessage ->
  e ∈ backlog (drain c sender q) /\
  (forall ev, ev ∈ sent (drain c sender q) -> msg ev <> e.1).
Proof.
  intros Hin F. split.
  - destruct (drain_balance c sender q) as [B _].
    rewrite B in Hin. apply elem_of_app in Hin as [?|R]; [done|].
    apply elem_of_removed in R as (v & Hp & N). destruct e as [m prio].
    apply pops_sound in Hp as (_ & ->). simpl in F. congruence.
  - intros ev Hs E. apply sent_sound in Hs as (_ & A & _).
    rewrite E in A. congruence.
Qed.

(** With nothing future in the queue, the pass reaches the end of it. *)
Lemma drain_runs_out c (sender : Validator) q :
  (forall e, e ∈ q -> classify c e.1 <> Some errFutureMessage) ->
  backlog (drain c sender q) = [] /\ isFuture (drain c sender q) = false.
Proof.
  intros NF.
  assert (IF : isFuture (drain c sender q) = false).
  { destruct (isFuture (drain c sender q)) eqn:I; [|done].
    apply isFuture_iff in I as (m & prio & Hp).
    apply pops_sound in Hp as (Hin & E).
    by destruct (NF (m, prio) Hin). }
  split; [|done].
  pose proof (drain_finished c sender q) as Fin. unfold finished in Fin.
  rewrite IF, orb_false_r in Fin. by apply Empty_true.
Qed.

(** An admitted entry that the pass has taken out of the queue was sent. *)
Lemma admitted_sent c (sender : Validator) q (e : item * Z) :
  backlog (drain c sender q) = [] ->
  e ∈ q -> classify c e.1 = None ->
  {| src := sender; msg := e.1 |} ∈ sent (drain c sender q).
Proof.
  intros BE Hin A. destruct (drain_balance c sender q) as [B S].
  rewrite BE in B. simpl in B. rewrite S. apply elem_of_posted.
  rewrite B in Hin. apply elem_of_removed in Hin as (v & Hp & _).
  destruct e as [m prio]. pose proof Hp as Hp'.
  apply pops_sound in Hp' as (_ & ->). simpl in A. rewrite A in Hp.
  by exists prio.
Qed.

(** X5. When no queued entry is future, the pass runs to the end of the
    queue: it leaves the queue empty with [isFuture] unset, pops every entry
    exactly once, and sends the event of every admitted entry. *)
Theorem drain_without_future c (sender : Validator) q :
  (forall e, e ∈ q -> classify c e.1 <> Some errFutureMessage) ->
  backlog (drain c sender q) = [] /\
  isFuture (drain c sender q) = false /\
  q ≡ₚ (pops (drain c sender q)).*1 /\
  (forall e, e ∈ q -> classify c e.1 = None ->
     {| src := sender; msg := e.1 |} ∈ sent (drain c sender q)).
Proof.
  intros NF.
  destruct (drain_runs_out c sender q NF) as [BE IF].
  destruct (drain_balance c sender q) as [B S].
  rewrite BE in B. simpl in B.
  assert (R : removed (pops (drain c sender q)) = (pops (drain c sender q)).*1).
  { apply removed_all, Forall_forall. intros [[m prio] v] Hp. simpl.
    apply pops_sound in Hp as (Hin & ->). exact (NF (m, prio) Hin). }
  split; [done|]. split; [done|]. split; [by rewrite <- R|].
  intros e Hin A. by apply admitted_sent.
Qed.
End DrainFurther.

(** ** The whole pass and the two store functions *)

Section PassFurther.
Context `{MsgCodes} `{Decoder} `{prque.TieBreak item}.
Implicit Types (c : core) (q : list (item * Z)).

(** The switch of lines 133-153 is one call of [pushDecoded] on the result
    of the decoder that the code selects. *)
Lemma storeBacklog_decoded c (m : message) (sender : Validator) :
  storeBacklog c m sender =
    if decide (valAddress sender = address c) then Some c
    else
      backlog' ← pushDecoded (queueOf c (valAddress sender)) m (decoded m);
      Some (withBacklogs c (<[valAddress sender := backlog']> (backlogs c))).
Proof.
  unfold storeBacklog, decoded.
  destruct (decide (valAddress sender = address c)); [done|].
  destruct (Code m =? msgPreprepare); [done|].
  by destruct (Code m =? msgRoundChange).
Qed.

Lemma toPriority_wellformed code view v :
  fields view = Some v -> exists p, toPriority code view = Some p.
Proof.
  unfold fields, toPriority. intros F.
  destruct (Sequence view) as [s|]; [|done].
  destruct (Round view) as [r|]; [|done]. simpl.
  destruct (code =? msgRoundChange); eauto.
Qed.


(** X7. The store functions keep what is queued. Whatever
    [storeQBFTBacklog] or [storeBacklog] is given, a queue that was in the
    map is still there afterwards, under the same address, and holds, as a
    multiset, the same entries, or the same entries and the message just
    stored: no entry is removed, and at most one is added. *)
Theorem store_keeps_entries c c' (a : Address) q :
  backlogs c !! a = Some q ->
  (forall m : QBFTMessage, storeQBFTBacklog c m = Some c' ->
     exists q', backlogs c' !! a = Some q' /\
                (q' ≡ₚ q \/ exists p, q' ≡ₚ (QBFT m, p) :: q)) /\
  (forall (m : message) (sender : Validator), storeBacklog c m sender = Some c' ->
     exists q', backlogs c' !! a = Some q' /\
                (q' ≡ₚ q \/ exists p, q' ≡ₚ (Legacy m, p) :: q)).
Proof.
  intros Hq.
  assert (Q : queueOf c a = q) by (unfold queueOf; by rewrite Hq).
  assert (Same : forall e : item,
            exists q', Some q = Some q' /\
                       (q' ≡ₚ q \/ exists p, q' ≡ₚ (e, p) :: q)).
  { intros e. exists q. split; [done|]. by left. }
  assert (Pushed : forall (e : item) p,
            exists q', Some (prque.Push q e p) = Some q' /\
                       (q' ≡ₚ q \/ exists p', q' ≡ₚ (e, p') :: q)).
  { intros e p. eexists. split; [done|]. right. exists p. apply Push_perm. }
  split.
  - intros m S. unfold storeQBFTBacklog in S.
    destruct (decide (qbftSource m = address c)).
    { injection S as <-. rewrite Hq. apply Same. }
    destruct (toPriority (qbftCode m) (qbftView m)) as [p|]; simpl in S; [|done].
    injection S as <-. simpl.
    destruct (decide (qbftSource m = a)) as [->|Hne].
    + rewrite lookup_insert_eq, Q. apply Pushed.
    + rewrite lookup_insert_ne, Hq by done. apply Same.
  - intros m sender S. rewrite storeBacklog_decoded in S.
    destruct (decide (valAddress sender = address c)).
    { injection S as <-. rewrite Hq. apply Same. }
    unfold pushDecoded in S.
    destruct (decide (valAddress sender = a)) as [E|Hne].
    + rewrite E, Q in S.
      destruct (decoded m) as [view|]; simpl in S.
      * destruct (toPriority (Code m) view) as [p|]; simpl in S; [|done].
        injection S as <-. simpl. rewrite lookup_insert_eq. apply Pushed.
      * injection S as <-. simpl. rewrite lookup_insert_eq. apply Same.
    + destruct (decoded m) as [view|]; simpl in S.
      * destruct (toPriority (Code m) view) as [p|]; simpl in S; [|done].
        injection S as <-. simpl. rewrite lookup_insert_ne, Hq by done. apply Same.
      * injection S as <-. simpl. rewrite lookup_insert_ne, Hq by done. apply Same.
Qed.
End PassFurther.

Section StoreFurther.
Context `{MsgCodes} `{Decoder} `{prque.TieBreak item}.
Implicit Types (c : core) (q : list (item * Z)).

(** A pass over the backlog of an engine that has moved on sends the event
    of an admitted entry of a known sender whose queue holds nothing future,
    and leaves that queue empty. *)
Lemma replayed c (a : Address) (val : Validator) q (m : item) (p : Z) :
  backlogs c !! a = Some q ->
  GetByAddress c a = Some val ->
  (m, p) ∈ q ->
  (forall e, e ∈ q -> classify c e.1 <> Some errFutureMessage) ->
  classify c m = None ->
  {| src := val; msg := m |} ∈ (processBacklog c).2 /\
  backlogs (processBacklog c).1 !! a = Some [].
Proof.
  intros Hq G Hin NF A.
  destruct (drain_runs_out c val q NF) as (BE & _).
  split.
  - rewrite processBacklog_events, list_elem_of_bind. exists (a, q). split.
    + unfold senderEvents. simpl. rewrite G.
      exact (admitted_sent c val q (m, p) BE Hin A).
    + by apply elem_of_map_to_list.
  - rewrite processBacklog_lookup, Hq. unfold senderQueue. simpl.
    by rewrite G, BE.
Qed.

(** X8. Round trip of a deferred new-style message: once
    [storeQBFTBacklog] has stored a message of another node, a pass run after
    the engine has moved to a state and view at which [checkMessage] admits
    it, with nothing future in the sender's queue, sends the message as an
    event carrying the sender's validator and leaves the queue empty. *)
Theorem qbft_deferred_then_replayed c c1 (m : QBFTMessage) (val : Validator)
    (st : State) (v : Z * Z) :
  qbftSource m <> address c ->
  GetByAddress c (qbftSource m) = Some val ->
  storeQBFTBacklog c m = Some c1 ->
  (forall e, e ∈ queueOf c1 (qbftSource m) ->
     classify (withView c1 st v) e.1 <> Some errFutureMessage) ->
  checkMessage (withView c1 st v) (qbftCode m) (Some (qbftView m)) = None ->
  {| src := val; msg := QBFT m |} ∈ (processBacklog (withView c1 st v)).2 /\
  backlogs (processBacklog (withView c1 st v)).1 !! qbftSource m = Some [].
Proof.
  intros Hne G S NF A. unfold storeQBFTBacklog in S.
  rewrite decide_False in S by done.
  destruct (toPriority (qbftCode m) (qbftView m)) as [p|]; simpl in S; [|done].
  injection S as <-.
  assert (Q : backlogs (withView (withBacklogs c
                 (<[qbftSource m := prque.Push (queueOf c (qbftSource m)) (QBFT m) p]>
                    (backlogs c))) st v) !! qbftSource m
              = Some (prque.Push (queueOf c (qbftSource m)) (QBFT m) p)).
  { simpl. by rewrite lookup_insert_eq. }
  eapply (replayed _ _ _ _ (QBFT m) p Q); try done.
  - unfold prque.Push. apply elem_of_app. right. by left.
  - intros e Hin. apply NF. unfold queueOf. simpl.
    by rewrite lookup_insert_eq.
Qed.

(** X9. Round trip of a deferred legacy message: the same through
    [storeBacklog], for a message whose payload decodes. *)
Theorem legacy_deferred_then_replayed c c1 (m : message) (sender val : Validator)
    (view : View) (st : State) (v : Z * Z) :
  valAddress sender <> address c ->
  GetByAddress c (valAddress sender) = Some val ->
  decoded m = Some view ->
  storeBacklog c m sender = Some c1 ->
  (forall e, e ∈ queueOf c1 (valAddress sender) ->
     classify (withView c1 st v) e.1 <> Some errFutureMessage) ->
  checkMessage (withView c1 st v) (Code m) (Some view) = None ->
  {| src := val; msg := Legacy m |} ∈ (processBacklog (withView c1 st v)).2 /\
  backlogs (processBacklog (withView c1 st v)).1 !! valAddress sender = Some [].
Proof.
  intros Hne G D S NF A. rewrite storeBacklog_decoded in S.
  rewrite decide_False in S by done. rewrite D in S. simpl in S.
  destruct (toPriority (Code m) view) as [p|]; simpl in S; [|done].
  injection S as <-.
  assert (Q : backlogs (withView (withBacklogs c
                 (<[valAddress sender :=
                      prque.Push (queueOf c (valAddress sender)) (Legacy m) p]>
                    (backlogs c))) st v) !! valAddress sender
              = Some (prque.Push (queueOf c (valAddress sender)) (Legacy m) p)).
  { simpl. by rewrite lookup_insert_eq. }
  eapply (replayed _ _ _ _ (Legacy m) p Q); try done.
  - unfold prque.Push. apply elem_of_app. right. by left.
  - intros e Hin. apply NF. unfold queueOf. simpl.
    by rewrite lookup_insert_eq.
  - unfold classify. simpl itemCode. rewrite itemView_legacy, D. exact A.
Qed.

(** X10. A legacy message whose payload does not decode is not stored, yet
    [storeBacklog] writes the sender's key: the queue of the sender keeps
    exactly its entries, a sender that had no queue gets an empty one, and
    every other queue is untouched. *)
Theorem storeBacklog_undecodable c (m : message) (sender : Validator) :
  valAddress sender <> address c ->
  decoded m = None ->
  exists c',
    storeBacklog c m sender = Some c' /\
    backlogs c' !! valAddress sender
      = Some (default [] (backlogs c !! valAddress sender)) /\
    (forall a, a <> valAddress sender -> backlogs c' !! a = backlogs c !! a) /\
    address c' = address c /\ state c' = state c /\ current c' = current c.
Proof.
  intros Hne D. rewrite storeBacklog_decoded.
  rewrite decide_False by done. rewrite D. simpl.
  eexists. split; [done|]. simpl. split; [by rewrite lookup_insert_eq|].
  split; [|done]. intros a N. by rewrite lookup_insert_ne.
Qed.

(** X11. What [checkMessage] defers can be stored: a view judged future is
    well-formed, so [toPriority] finds the numbers it dereferences, and
    neither store function fails on such a message. *)
Theorem deferred_is_storable c (code : Z) (view : View) :
  checkMessage c code (Some view) = Some errFutureMessage ->
  (exists p, toPriority code view = Some p) /\
  (forall m : QBFTMessage, qbftCode m = code -> qbftView m = view ->
     is_Some (storeQBFTBacklog c m)) /\
  (forall (m : message) (sender : Validator), Code m = code ->
     decoded m = Some view -> is_Some (storeBacklog c m sender)).
Proof.
  intros F.
  assert (W : exists p, toPriority code view = Some p).
  { destruct (fields view) as [v|] eqn:E.
    - by eapply toPriority_wellformed.
    - by rewrite checkMessage_malformed in F. }
  destruct W as [p W]. split; [by exists p|]. split.
  - intros m <- <-. unfold storeQBFTBacklog.
    destruct (decide (qbftSource m = address c)); [done|].
    rewrite W. simpl. done.
  - intros m sender <- D. rewrite storeBacklog_decoded.
    destruct (decide (valAddress sender = address c)); [done|].
    rewrite D. simpl. rewrite W. simpl. done.
Qed.
End StoreFurther.

(** ** An invariant of the backlog *)

Section KeyedInvariant.
Context `{MsgCodes} `{Decoder} `{prque.TieBreak item}.
Implicit Types (c : core) (q : list (item * Z)).

Lemma wellKeyed_insert (b : gmap Address (list (item * Z))) a q :
  wellKeyed b ->
  (forall e, e ∈ q -> keyed e /\ filed a e) ->
  wellKeyed (<[a := q]> b).
Proof.
  intros W Q a' q' e L Hin. destruct (decide (a = a')) as [->|Hne].
  - rewrite lookup_insert_eq in L. injection L as <-. by apply Q.
  - rewrite lookup_insert_ne in L by done. by eapply W.
Qed.

Lemma wellKeyed_queueOf c a e :
  wellKeyed (backlogs c) -> e ∈ queueOf c a -> keyed e /\ filed a e.
Proof.
  intros W Hin. unfold queueOf in Hin.
  destruct (backlogs c !! a) as [q|] eqn:L; simpl in Hin.
  - by eapply W.
  - by apply elem_of_nil in Hin.
Qed.

Lemma wellKeyed_push c a m p e :
  wellKeyed (backlogs c) -> keyed (m, p) -> filed a (m, p) ->
  e ∈ prque.Push (queueOf c a) m p -> keyed e /\ filed a e.
Proof.
  intros W K F Hin. unfold prque.Push in Hin.
  apply elem_of_app in Hin as [Hin|Hin].
  - by eapply wellKeyed_queueOf.
  - apply list_elem_of_singleton in Hin as ->. done.
Qed.

Lemma keyed_sequence (e : item * Z) :
  keyed e -> is_Some (Sequence (itemView e.1)).
Proof.
  unfold keyed, toPriority. intros K.
  destruct (Sequence (itemView e.1)); [done|].
  by destruct (itemCode e.1 =? msgRoundChange).
Qed.

Lemma keyed_decodes (m : message) (p : Z) :
  keyed (Legacy m, p) -> is_Some (decoded m).
Proof.
  intros K. apply keyed_sequence in K.
  change (is_Some (Sequence (itemView (Legacy m)))) in K.
  rewrite itemView_legacy in K.
  destruct (decoded m); [done|]. simpl in K. by destruct K.
Qed.

Lemma step_wellKeyed c o c' :
  step c o = Some c' -> wellKeyed (backlogs c) -> wellKeyed (backlogs c').
Proof.
  destruct o as [m|m sender| |st v]; simpl; intros S W.
  - unfold storeQBFTBacklog in S.
    destruct (decide (qbftSource m = address c)); [by injection S as <-|].
    destruct (toPriority (qbftCode m) (qbftView m)) as [p|] eqn:T;
      simpl in S; [|done].
    injection S as <-. simpl. apply wellKeyed_insert; [done|].
    intros e Hin. by eapply (wellKeyed_push c _ (QBFT m) p).
  - rewrite storeBacklog_decoded in S.
    destruct (decide (valAddress sender = address c)); [by injection S as <-|].
    unfold pushDecoded in S.
    destruct (decoded m) as [view|] eqn:D; simpl in S.
    + destruct (toPriority (Code m) view) as [p|] eqn:T; simpl in S; [|done].
      injection S as <-. simpl. apply wellKeyed_insert; [done|].
      intros e Hin. eapply (wellKeyed_push c _ (Legacy m) p); try done.
      unfold keyed. simpl fst. simpl snd. simpl itemCode.
      by rewrite itemView_legacy, D.
    + injection S as <-. simpl. apply wellKeyed_insert; [done|].
      intros e Hin. by eapply wellKeyed_queueOf.
  - injection S as <-. intros a q' e L Hin.
    change (backlogs (processBacklog c).1 !! a = Some q') in L.
    rewrite processBacklog_lookup in L.
    destruct (backlogs c !! a) as [q|] eqn:Lq; [|done].
    unfold senderQueue in L. simpl in L.
    destruct (GetByAddress c a) as [v|]; [|done].
    injection L as <-. apply backlog_subset in Hin. by eapply W.
  - by injection S as <-.
Qed.

(** X12. Every entry of the backlog is keyed by its own view. If each
    queued entry carries the priority [toPriority] gives to its code and
    view, and each new-style entry lies under its own source, then so it is
    after any sequence of stores, passes and moves of the engine. Hence a
    queued entry always has a sequence number for [checkMessage] to compare,
    and a queued legacy entry always decodes. *)
Theorem backlog_stays_keyed c (os : list operation) c' :
  wellKeyed (backlogs c) ->
  run c os = Some c' ->
  wellKeyed (backlogs c') /\
  (forall a q e, backlogs c' !! a = Some q -> e ∈ q ->
     is_Some (Sequence (itemView e.1))) /\
  (forall a q m p, backlogs c' !! a = Some q -> (Legacy m, p) ∈ q ->
     is_Some (decoded m)).
Proof.
  intros W R.
  assert (W' : wellKeyed (backlogs c')).
  { revert c W R. induction os as [|o os IH]; intros c W R; simpl in R.
    - by injection R as <-.
    - destruct (step c o) as [c1|] eqn:S; simpl in R; [|done].
      eapply IH; [|exact R]. by eapply step_wellKeyed. }
  split; [done|]. split.
  - intros a q e L Hin. apply keyed_sequence. by eapply W'.
  - intros a q m p L Hin. apply (keyed_decodes m p). by eapply W'.
Qed.
End KeyedInvariant.

(** ** The priority key beyond the exact range *)

(** The conversion above [2^24], spelt out: with [P] the spacing of the
    neighbours of [n], the result is [n / P] or its successor, times [P]. *)
Lemma float32_spec n :
  2 ^ 24 <= n ->
  let P := 2 ^ (Z.log2 n - 23) in
  exists u,
    (u = 0 \/ u = 1) /\
    float32 n = (n / P + u) * P /\
    (u = 1 <->
       (2 ^ (Z.log2 n - 24) < n mod P \/
        (n mod P = 2 ^ (Z.log2 n - 24) /\ Z.odd (n / P) = true))).
Proof.
  intros Hn P.
  assert (L : 24 <= Z.log2 n) by (apply Z.log2_le_pow2; lia).
  unfold float32. destruct (n <? 2 ^ 24) eqn:E; [apply Z.ltb_lt in E; lia|].
  replace (Z.log2 n - 23 - 1) with (Z.log2 n - 24) by lia.
  rewrite Z.shiftr_div_pow2, Z.shiftl_mul_pow2 by lia. fold P.
  destruct ((2 ^ (Z.log2 n - 24) <? n mod P)
            || ((n mod P =? 2 ^ (Z.log2 n - 24)) && Z.odd (n / P))) eqn:U.
  - exists 1. split; [by right|]. split; [done|]. split; [|done]. intros _.
    apply orb_true_iff in U as [U|U].
    + left. by apply Z.ltb_lt.
    + right. apply andb_true_iff in U as [U1 U2]. by apply Z.eqb_eq in U1.
  - exists 0. split; [by left|]. split; [by rewrite Z.add_0_r|]. split; [done|].
    apply orb_false_iff in U as [U1 U2]. apply Z.ltb_ge in U1.
    intros [G|[G1 G2]]; [lia|].
    rewrite G1, Z.eqb_refl, G2 in U2. done.
Qed.

(** The result lies between the two powers of two that frame [n]. *)
Lemma float32_range n :
  2 ^ 24 <= n ->
  2 ^ Z.log2 n <= float32 n <= 2 ^ (Z.log2 n + 1).
Proof.
  intros Hn.
  assert (L : 24 <= Z.log2 n) by (apply Z.log2_le_pow2; lia).
  destruct (float32_spec n Hn) as (u & Hu & -> & _).
  pose proof (Z.log2_spec n ltac:(lia)) as [S1 S2].
  set (P := 2 ^ (Z.log2 n - 23)) in *.
  assert (HP : 0 < P) by (apply Z.pow_pos_nonneg; lia).
  assert (E1 : 2 ^ Z.log2 n = 2 ^ 23 * P).
  { unfold P. rewrite <- Z.pow_add_r by lia. f_equal. lia. }
  assert (E2 : 2 ^ (Z.log2 n + 1) = 2 ^ 24 * P).
  { unfold P. rewrite <- Z.pow_add_r by lia. f_equal. lia. }
  replace (Z.succ (Z.log2 n)) with (Z.log2 n + 1) in S2 by lia.
  rewrite E1, E2 in *.
  pose proof (Z.div_mod n P ltac:(lia)) as DM.
  pose proof (Z.mod_pos_bound n P HP) as MB.
  assert (2 ^ 23 <= n / P < 2 ^ 24) by nia.
  nia.
Qed.

Lemma float32_monotonic n n' : 0 <= n -> n <= n' -> float32 n <= float32 n'.
Proof.
  intros H0 Hle.
  destruct (Z_lt_le_dec n (2 ^ 24)) as [Sn|Ln].
  - rewrite (float32_exact n Sn).
    destruct (Z_lt_le_dec n' (2 ^ 24)) as [Sn'|Ln'].
    + by rewrite (float32_exact n' Sn').
    + pose proof (float32_range n' Ln') as [R _].
      assert (24 <= Z.log2 n') by (apply Z.log2_le_pow2; lia).
      assert (2 ^ 24 <= 2 ^ Z.log2 n') by (apply Z.pow_le_mono_r; lia).
      lia.
  - assert (Ln' : 2 ^ 24 <= n') by lia.
    assert (L : 24 <= Z.log2 n) by (apply Z.log2_le_pow2; lia).
    pose proof (Z.log2_le_mono n n' Hle) as LL.
    destruct (Z_lt_le_dec (Z.log2 n) (Z.log2 n')) as [Lt|Ge].
    + pose proof (float32_range n Ln) as [_ R].
      pose proof (float32_range n' Ln') as [R' _].
      assert (2 ^ (Z.log2 n + 1) <= 2 ^ Z.log2 n') by (apply Z.pow_le_mono_r; lia).
      lia.
    + assert (E : Z.log2 n' = Z.log2 n) by lia.
      destruct (float32_spec n Ln) as (u & Hu & -> & U).
      destruct (float32_spec n' Ln') as (u' & Hu' & -> & U').
      rewrite E in *.
      set (P := 2 ^ (Z.log2 n - 23)) in *.
      set (half := 2 ^ (Z.log2 n - 24)) in *.
      assert (HP : 0 < P) by (apply Z.pow_pos_nonneg; lia).
      pose proof (Z.div_mod n P ltac:(lia)) as DM.
      pose proof (Z.div_mod n' P ltac:(lia)) as DM'.
      pose proof (Z.mod_pos_bound n P HP) as MB.
      pose proof (Z.mod_pos_bound n' P HP) as MB'.
      pose proof (Z.div_le_mono n n' P HP Hle) as DL.
      destruct (Z_lt_le_dec (n / P) (n' / P)) as [M|M].
      * nia.
      * assert (EM : n' / P = n / P) by lia. rewrite EM in *.
        assert (n mod P <= n' mod P) by lia.
        assert (u <= u'); [|nia].
        destruct Hu as [-> | ->]; [lia|].
        assert (u' = 1); [|lia]. apply U'.
        destruct (proj1 U eq_refl) as [G|[G1 G2]]; [left; lia|].
        destruct (Z_lt_le_dec half (n' mod P)); [by left|right].
        split; [lia|done].
Qed.

Section PriorityFurther.
Context `{MsgCodes}.

Lemma packedKey_nowrap code s r :
  0 <= s -> 0 <= r -> s * 1000 + r * 10 + 3 < 2 ^ 64 ->
  packedKey code s r = s * 1000 + r * 10 + rank code.
Proof.
  intros Hs Hr B. pose proof (rank_bounds code) as K.
  unfold packedKey.
  rewrite !Uint64_small by lia.
  rewrite (wrap64_small (s * 1000)) by lia.
  rewrite (wrap64_small (r * 10)) by lia.
  rewrite (wrap64_small (rank code)) by lia.
  rewrite (wrap64_small (s * 1000 + r * 10)) by lia.
  apply wrap64_small. lia.
Qed.

(** X13. The key never inverts the order of views. For two messages that
    are not round changes, with rounds in [0,99] and the packed key below
    [2^64] (no wrap-around), the one with the strictly smaller view never
    receives a lower priority than the other: rounding to [float32] can make
    the two priorities equal, never swap them. Below [2^24], where nothing is
    rounded, the priority of the smaller view is strictly higher. *)
Theorem toPriority_never_inverts code1 code2 s1 r1 s2 r2 :
  code1 <> msgRoundChange -> code2 <> msgRoundChange ->
  0 <= s1 -> 0 <= r1 <= 99 -> 0 <= r2 <= 99 ->
  s2 * 1000 + r2 * 10 + 3 < 2 ^ 64 ->
  viewLt (s1, r1) (s2, r2) ->
  exists p1 p2,
    toPriority code1 (mkView s1 r1) = Some p1 /\
    toPriority code2 (mkView s2 r2) = Some p2 /\
    p2 <= p1 /\
    (s2 * 1000 + r2 * 10 + 3 < 2 ^ 24 -> p2 < p1).
Proof.
  intros N1 N2 Hs1 Hr1 Hr2 B L. unfold viewLt in L. simpl in L.
  pose proof (rank_bounds code1) as K1. pose proof (rank_bounds code2) as K2.
  unfold toPriority.
  apply Z.eqb_neq in N1 as ->. apply Z.eqb_neq in N2 as ->. simpl.
  rewrite (packedKey_nowrap code1 s1 r1) by lia.
  rewrite (packedKey_nowrap code2 s2 r2) by lia.
  eexists _, _. split; [done|]. split; [done|].
  assert (Lt : s1 * 1000 + r1 * 10 + rank code1 < s2 * 1000 + r2 * 10 + rank code2)
    by lia.
  split.
  - assert (Nn : 0 <= s1 * 1000 + r1 * 10 + rank code1) by lia.
    pose proof (float32_monotonic _ _ Nn (Z.lt_le_incl _ _ Lt)). lia.
  - intros E. rewrite !float32_exact by lia. lia.
Qed.

(** X14. The order of the kinds within one view, where the key is exact
    (below [2^24]): the round change of a sequence comes before every other
    message of that sequence, and within a view the pre-prepare comes before
    the commit, which comes before the prepare (the ranks 1, 2, 3 of
    [msgPriority]). *)
Theorem toPriority_rank_order `{!MsgCodesRanked} (s r : Z) :
  0 <= s -> 0 <= r -> s * 1000 + r * 10 + 3 < 2 ^ 24 ->
  exists p0 p1 p2 p3,
    toPriority msgRoundChange (mkView s r) = Some p0 /\
    toPriority msgPreprepare (mkView s r) = Some p1 /\
    toPriority msgCommit (mkView s r) = Some p2 /\
    toPriority msgPrepare (mkView s r) = Some p3 /\
    p3 < p2 /\ p2 < p1 /\ p1 < p0.
Proof.
  intros Hs Hr B.
  pose proof preprepare_lt_prepare. pose proof prepare_lt_commit.
  pose proof roundchange_ne_preprepare. pose proof roundchange_ne_prepare.
  pose proof roundchange_ne_commit.
  assert (R1 : rank msgPreprepare = 1).
  { unfold rank, msgPriority. by rewrite lookup_insert_eq. }
  assert (R2 : rank msgCommit = 2).
  { unfold rank, msgPriority.
    rewrite lookup_insert_ne by lia. by rewrite lookup_insert_eq. }
  assert (R3 : rank msgPrepare = 3).
  { unfold rank, msgPriority.
    rewrite !lookup_insert_ne by lia. by rewrite lookup_singleton_eq. }
  rewrite (toPriority_exact msgPreprepare) by (try done; congruence).
  rewrite (toPriority_exact msgCommit) by (try done; congruence).
  rewrite (toPriority_exact msgPrepare) by (try done; congruence).
  rewrite R1, R2, R3.
  assert (T0 : toPriority msgRoundChange (mkView s r) = Some (- (s * 1000))).
  { unfold toPriority. rewrite Z.eqb_refl. simpl.
    rewrite Uint64_small by lia. rewrite wrap64_small by lia.
    by rewrite float32_exact by lia. }
  rewrite T0. eexists _, _, _, _. repeat split; lia.
Qed.
End PriorityFurther.

(** ** A pass repeated *)

Section PassTwice.
Context `{MsgCodes} `{Decoder} `{prque.TieBreak item}.
Implicit Types (c : core) (q : list (item * Z)).

(** With pairwise distinct priorities, the entry pushed back is the one the
    next [Pop] returns. *)
Lemma Pop_pushed_back q (m : item) (prio : Z) rest :
  NoDup q.*2 ->
  prque.Pop q = Some (m, prio, rest) ->
  prque.Pop (prque.Push rest m prio) = Some (m, prio, rest).
Proof.
  intros ND P.
  pose proof (Pop_perm _ _ _ _ P) as Perm.
  assert (ND' : NoDup (prio :: rest.*2)).
  { rewrite Perm in ND. exact ND. }
  apply NoDup_cons in ND' as [Hnot _].
  destruct (prque.Pop (prque.Push rest m prio)) as [[[m' prio'] rest']|] eqn:P'.
  2: { apply Pop_None in P'. unfold prque.Push in P'. by destruct rest. }
  apply Pop_Some in P' as (i & Hi & -> & Ht).
  unfold prque.Push in *.
  assert (Hle : prio <= prio').
  { unfold prque.top in Ht. rewrite Forall_forall in Ht.
    apply (Ht (m, prio)). apply elem_of_app. right. by left. }
  destruct (decide (i < length rest)%nat) as [Lt|Ge].
  - rewrite lookup_app_l in Hi by done.
    assert (Hin : (m', prio') ∈ rest) by (by eapply list_elem_of_lookup_2).
    assert (prio' <= prio).
    { apply (Pop_top _ _ _ _ P (m', prio')). rewrite Perm. by right. }
    assert (prio' = prio) by lia. subst prio'.
    destruct Hnot. apply list_elem_of_fmap. by exists (m', prio).
  - rewrite lookup_app_r in Hi by lia.
    destruct (i - length rest)%nat as [|k] eqn:K; simpl in Hi; [|done].
    injection Hi as <- <-.
    assert (i = length rest) as -> by lia.
    by rewrite (delete_middle rest [] (m, prio)), app_nil_r.
Qed.

(** A second pass over the queue a pass has left, at the same state and
    view, pops at most the entry that was pushed back and pushes it back
    again. *)
Lemma drain_again c (sender : Validator) q :
  NoDup q.*2 ->
  backlog (drain c sender (backlog (drain c sender q)))
    = backlog (drain c sender q) /\
  sent (drain c sender (backlog (drain c sender q))) = [] /\
  isFuture (drain c sender (backlog (drain c sender q)))
    = isFuture (drain c sender q).
Proof.
  apply (drain_ind c sender (fun q st =>
    NoDup q.*2 ->
    backlog (drain c sender (backlog st)) = backlog st /\
    sent (drain c sender (backlog st)) = [] /\
    isFuture (drain c sender (backlog st)) = isFuture st)).
  - done.
  - intros q' m prio rest P C ND. simpl.
    by rewrite (drain_future _ _ _ _ _ _ (Pop_pushed_back _ _ _ _ ND P) C).
  - intros q' m prio rest err P C N IH ND. simpl. apply IH.
    rewrite (Pop_perm _ _ _ _ P) in ND. by apply NoDup_cons in ND as [_ ?].
  - intros q' m prio rest P C IH ND. simpl. apply IH.
    rewrite (Pop_perm _ _ _ _ P) in ND. by apply NoDup_cons in ND as [_ ?].
Qed.

Lemma bind_all_nil {A B} (f : A -> list B) (l : list A) :
  (forall x, x ∈ l -> f x = []) -> l ≫= f = [].
Proof.
  induction l as [|x l IH]; intros E; [done|].
  rewrite bind_cons, (E x) by left. simpl. apply IH.
  intros y Hy. apply E. by right.
Qed.

(** X15. A pass repeated at the same state and view does nothing more. If
    within each queue the priorities are pairwise distinct, a second
    [processBacklog] right after a first sends no event and leaves the
    backlog map exactly as the first left it. *)
Theorem processBacklog_twice c :
  (forall a q, backlogs c !! a = Some q -> NoDup q.*2) ->
  (processBacklog (processBacklog c).1).2 = [] /\
  backlogs (processBacklog (processBacklog c).1).1 = backlogs (processBacklog c).1.
Proof.
  intros ND.
  assert (L : forall a q', backlogs (processBacklog c).1 !! a = Some q' ->
            exists q v, backlogs c !! a = Some q /\ GetByAddress c a = Some v /\
                        q' = backlog (drain c v q)).
  { intros a q' E. rewrite processBacklog_lookup in E.
    destruct (backlogs c !! a) as [q|]; [|done].
    unfold senderQueue in E. simpl in E.
    destruct (GetByAddress c a) as [v|] eqn:G; [|done].
    injection E as <-. by exists q, v. }
  split.
  - rewrite processBacklog_events. apply bind_all_nil.
    intros [a q'] Hin. apply elem_of_map_to_list in Hin.
    destruct (L a q' Hin) as (q & v & Hq & G & ->).
    unfold senderEvents, GetByAddress in *. simpl.
    rewrite G, (drain_ext _ c) by done. by apply drain_again, (ND a).
  - apply map_eq. intros a.
    rewrite (processBacklog_lookup (processBacklog c).1).
    destruct (backlogs (processBacklog c).1 !! a) as [q'|] eqn:E; [|done].
    destruct (L a q' E) as (q & v & Hq & G & ->).
    unfold senderQueue, GetByAddress in *. simpl.
    rewrite G, (drain_ext _ c) by done. f_equal. by apply drain_again, (ND a).
Qed.
End PassTwice.

(** ** The further properties on examples *)

(** A prepare for (5, 1) at a node at view (5, 0): future in any state. *)
Lemma checkMessage_above_current_witness :
  1 <> @msgRoundChange iotaCodes /\
  fields (mkView 5 1) = Some (5, 1) /\
  viewLt (currentView (node StateCommitted 5 0 ∅)) (5, 1) /\
  check0 (withState (node StateCommitted 5 0 ∅) StatePrepared) 1 (Some (mkView 5 1))
    = Some errFutureMessage.
Proof.
  assert (N : 1 <> @msgRoundChange iotaCodes) by (simpl; lia).
  assert (L : viewLt (currentView (node StateCommitted 5 0 ∅)) (5, 1)).
  { right. simpl. lia. }
  split; [exact N|]. split; [reflexivity|]. split; [exact L|].
  exact (@checkMessage_above_current iotaCodes (node StateCommitted 5 0 ∅) 1
           (mkView 5 1) (5, 1) N eq_refl L StatePrepared).
Defined.

(** A pre-prepare for (5, 0) admitted at view (5, 0) in state AcceptRequest. *)
Lemma checkMessage_admits_only_witness :
  check0 (node StateAcceptRequest 5 0 ∅) 0 (Some (mkView 5 0)) = None /\
  exists v r,
    Some (mkView 5 0) = Some v /\
    fields v = Some ((currentView (node StateAcceptRequest 5 0 ∅)).1, r) /\
    (currentView (node StateAcceptRequest 5 0 ∅)).2 <= r /\
    (0 <> @msgRoundChange iotaCodes ->
       r = (currentView (node StateAcceptRequest 5 0 ∅)).2 /\
       state (node StateAcceptRequest 5 0 ∅) <> StateCommitted).
Proof.
  assert (A : check0 (node StateAcceptRequest 5 0 ∅) 0 (Some (mkView 5 0)) = None)
    by reflexivity.
  split; [exact A|].
  exact (@checkMessage_admits_only iotaCodes (node StateAcceptRequest 5 0 ∅) 0
           (Some (mkView 5 0)) A).
Defined.

(** The commit for (5, 0) of [queue2'] is future in state AcceptRequest and
    stays queued. *)
Lemma future_entries_kept_witness :
  (QBFT commit50, -5002) ∈ queue2' /\
  @classify iotaCodes twoByteDecoder (node StateAcceptRequest 5 0 ∅) (QBFT commit50)
    = Some errFutureMessage /\
  (QBFT commit50, -5002)
    ∈ backlog (drain0 (node StateAcceptRequest 5 0 ∅) validator2 queue2').
Proof.
  assert (I : (QBFT commit50, -5002) ∈ queue2') by left.
  assert (F : @classify iotaCodes twoByteDecoder (node StateAcceptRequest 5 0 ∅)
                (QBFT commit50) = Some errFutureMessage) by reflexivity.
  split; [exact I|]. split; [exact F|].
  exact (proj1 (@future_entries_kept iotaCodes twoByteDecoder oldestFirst
                  (node StateAcceptRequest 5 0 ∅) validator2 queue2'
                  (QBFT commit50, -5002) I F)).
Defined.

(** Nothing of [queue2] is future at view (5, 0): the pass empties it. *)
Lemma drain_without_future_witness :
  (forall e, e ∈ queue2 ->
     @classify iotaCodes twoByteDecoder (node StateAcceptRequest 5 0 ∅) e.1
       <> Some errFutureMessage) /\
  backlog (drain0 (node StateAcceptRequest 5 0 ∅) validator2 queue2) = [].
Proof.
  assert (NF : forall e, e ∈ queue2 ->
     @classify iotaCodes twoByteDecoder (node StateAcceptRequest 5 0 ∅) e.1
       <> Some errFutureMessage).
  { intros e Hin. unfold queue2 in Hin.
    apply elem_of_cons in Hin as [->|Hin]; [vm_compute; discriminate|].
    apply list_elem_of_singleton in Hin as ->. vm_compute. discriminate. }
  split; [exact NF|].
  exact (proj1 (@drain_without_future iotaCodes twoByteDecoder oldestFirst
                  (node StateAcceptRequest 5 0 ∅) validator2 queue2 NF)).
Defined.

(** Storing a commit of validator 2, which has two messages queued. *)
Lemma store_keeps_entries_witness :
  backlogs (node StateAcceptRequest 4 0 {[ 2%N := queue2 ]}) !! 2%N = Some queue2 /\
  @storeQBFTBacklog iotaCodes (node StateAcceptRequest 4 0 {[ 2%N := queue2 ]}) commit50
    = Some (node StateAcceptRequest 4 0 {[ 2%N := queue2 ++ [(QBFT commit50, -5002)] ]}) /\
  exists q',
    backlogs (node StateAcceptRequest 4 0 {[ 2%N := queue2 ++ [(QBFT commit50, -5002)] ]})
      !! 2%N = Some q' /\
    (q' ≡ₚ queue2 \/ exists p, q' ≡ₚ (QBFT commit50, p) :: queue2).
Proof.
  assert (Q : backlogs (node StateAcceptRequest 4 0 {[ 2%N := queue2 ]}) !! 2%N
              = Some queue2) by reflexivity.
  assert (S : @storeQBFTBacklog iotaCodes
                (node StateAcceptRequest 4 0 {[ 2%N := queue2 ]}) commit50
              = Some (node StateAcceptRequest 4 0
                        {[ 2%N := queue2 ++ [(QBFT commit50, -5002)] ]})).
  { vm_compute. reflexivity. }
  split; [exact Q|]. split; [exact S|].
  exact (proj1 (@store_keeps_entries iotaCodes twoByteDecoder _ _ 2%N queue2 Q)
           commit50 S).
Defined.

(** The pre-prepare for (5, 0), stored at view (4, 0), replayed at (5, 0). *)
Lemma qbft_deferred_then_replayed_witness :
  qbftSource preprepare50 <> address (node StateAcceptRequest 4 0 ∅) /\
  GetByAddress (node StateAcceptRequest 4 0 ∅) (qbftSource preprepare50)
    = Some validator2 /\
  @storeQBFTBacklog iotaCodes (node StateAcceptRequest 4 0 ∅) preprepare50
    = Some (node StateAcceptRequest 4 0 {[ 2%N := [(QBFT preprepare50, -5001)] ]}) /\
  {| src := validator2; msg := QBFT preprepare50 |}
    ∈ (process0 (node StateAcceptRequest 5 0 {[ 2%N := [(QBFT preprepare50, -5001)] ]})).2 /\
  backlogs (process0 (node StateAcceptRequest 5 0
                        {[ 2%N := [(QBFT preprepare50, -5001)] ]})).1 !! 2%N = Some [].
Proof.
  assert (N : qbftSource preprepare50 <> address (node StateAcceptRequest 4 0 ∅))
    by (simpl; lia).
  assert (G : GetByAddress (node StateAcceptRequest 4 0 ∅) (qbftSource preprepare50)
              = Some validator2) by reflexivity.
  assert (S : @storeQBFTBacklog iotaCodes (node StateAcceptRequest 4 0 ∅) preprepare50
              = Some (node StateAcceptRequest 4 0
                        {[ 2%N := [(QBFT preprepare50, -5001)] ]})).
  { vm_compute. reflexivity. }
  split; [exact N|]. split; [exact G|]. split; [exact S|].
  apply (@qbft_deferred_then_replayed iotaCodes twoByteDecoder oldestFirst
           (node StateAcceptRequest 4 0 ∅) _ preprepare50 validator2
           StateAcceptRequest (5, 0) N G S).
  - intros e Hin.
    change (e ∈ [(QBFT preprepare50, -5001)]) in Hin.
    apply list_elem_of_singleton in Hin as ->. vm_compute. discriminate.
  - reflexivity.
Defined.

(** The prepare for (5, 0), stored at view (4, 0), replayed at (5, 0) in
    state Preprepared. *)
Lemma legacy_deferred_then_replayed_witness :
  valAddress validator2 <> address (node StatePreprepared 4 0 ∅) /\
  GetByAddress (node StatePreprepared 4 0 ∅) (valAddress validator2)
    = Some validator2 /\
  @decoded iotaCodes twoByteDecoder prepare50 = Some (mkView 5 0) /\
  @storeBacklog iotaCodes twoByteDecoder (node StatePreprepared 4 0 ∅) prepare50 validator2
    = Some (node StatePreprepared 4 0 {[ 2%N := [(Legacy prepare50, -5003)] ]}) /\
  {| src := validator2; msg := Legacy prepare50 |}
    ∈ (process0 (node StatePreprepared 5 0 {[ 2%N := [(Legacy prepare50, -5003)] ]})).2 /\
  backlogs (process0 (node StatePreprepared 5 0
                        {[ 2%N := [(Legacy prepare50, -5003)] ]})).1 !! 2%N = Some [].
Proof.
  assert (N : valAddress validator2 <> address (node StatePreprepared 4 0 ∅))
    by (simpl; lia).
  assert (G : GetByAddress (node StatePreprepared 4 0 ∅) (valAddress validator2)
              = Some validator2) by reflexivity.
  assert (D : @decoded iotaCodes twoByteDecoder prepare50 = Some (mkView 5 0))
    by reflexivity.
  assert (S : @storeBacklog iotaCodes twoByteDecoder (node StatePreprepared 4 0 ∅)
                prepare50 validator2
              = Some (node StatePreprepared 4 0
                        {[ 2%N := [(Legacy prepare50, -5003)] ]})).
  { vm_compute. reflexivity. }
  split; [exact N|]. split; [exact G|]. split; [exact D|]. split; [exact S|].
  apply (@legacy_deferred_then_replayed iotaCodes twoByteDecoder oldestFirst
           (node StatePreprepared 4 0 ∅) _ prepare50 validator2 validator2
           (mkView 5 0) StatePreprepared (5, 0) N G D S).
  - intros e Hin.
    change (e ∈ [(Legacy prepare50, -5003)]) in Hin.
    apply list_elem_of_singleton in Hin as ->. vm_compute. discriminate.
  - reflexivity.
Defined.

(** The garbled prepare of validator 2, which has no queue yet. *)
Lemma storeBacklog_undecodable_witness :
  valAddress validator2 <> address (node StateAcceptRequest 4 0 ∅) /\
  @decoded iotaCodes twoByteDecoder garbled = None /\
  @storeBacklog iotaCodes twoByteDecoder (node StateAcceptRequest 4 0 ∅) garbled validator2
    = Some (node StateAcceptRequest 4 0 {[ 2%N := [] ]}).
Proof.
  assert (N : valAddress validator2 <> address (node StateAcceptRequest 4 0 ∅))
    by (simpl; lia).
  assert (D : @decoded iotaCodes twoByteDecoder garbled = None) by reflexivity.
  split; [exact N|]. split; [exact D|].
  destruct (@storeBacklog_undecodable iotaCodes twoByteDecoder
              (node StateAcceptRequest 4 0 ∅) garbled validator2 N D)
    as (c' & S & _).
  rewrite S. vm_compute in S. exact (eq_sym S).
Defined.

(** The pre-prepare for (5, 0), future at view (4, 0), has a key. *)
Lemma deferred_is_storable_witness :
  check0 (node StateAcceptRequest 4 0 ∅) 0 (Some (mkView 5 0)) = Some errFutureMessage /\
  exists p, @toPriority iotaCodes 0 (mkView 5 0) = Some p.
Proof.
  assert (F : check0 (node StateAcceptRequest 4 0 ∅) 0 (Some (mkView 5 0))
              = Some errFutureMessage) by reflexivity.
  split; [exact F|].
  exact (proj1 (@deferred_is_storable iotaCodes twoByteDecoder
                  (node StateAcceptRequest 4 0 ∅) 0 (mkView 5 0) F)).
Defined.

(** From the empty backlog, through two stores and a move of the engine. *)
Lemma backlog_stays_keyed_witness :
  @wellKeyed iotaCodes twoByteDecoder (backlogs (node StateAcceptRequest 4 0 ∅)) /\
  run0 (node StateAcceptRequest 4 0 ∅)
    [StoreQBFT preprepare50; StoreQBFT roundChange53; Advance StateAcceptRequest (5, 0)]
    = Some (node StateAcceptRequest 5 0 {[ 2%N := queue2 ]}) /\
  @wellKeyed iotaCodes twoByteDecoder
    (backlogs (node StateAcceptRequest 5 0 {[ 2%N := queue2 ]})).
Proof.
  assert (W : @wellKeyed iotaCodes twoByteDecoder
                (backlogs (node StateAcceptRequest 4 0 ∅))).
  { intros a q e L. simpl in L. by rewrite lookup_empty in L. }
  assert (R : run0 (node StateAcceptRequest 4 0 ∅)
      [StoreQBFT preprepare50; StoreQBFT roundChange53; Advance StateAcceptRequest (5, 0)]
      = Some (node StateAcceptRequest 5 0 {[ 2%N := queue2 ]})).
  { vm_compute. reflexivity. }
  split; [exact W|]. split; [exact R|].
  exact (proj1 (@backlog_stays_keyed iotaCodes twoByteDecoder oldestFirst _ _ _ W R)).
Defined.

(** The two pre-prepares of C2: equal priorities, not swapped ones. *)
Lemma toPriority_never_inverts_witness :
  0 <> @msgRoundChange iotaCodes /\
  134219 * 1000 + 1 * 10 + 3 < 2 ^ 64 /\
  viewLt (134219, 0) (134219, 1) /\
  exists p1 p2,
    @toPriority iotaCodes 0 (mkView 134219 0) = Some p1 /\
    @toPriority iotaCodes 0 (mkView 134219 1) = Some p2 /\
    p2 <= p1 /\
    (134219 * 1000 + 1 * 10 + 3 < 2 ^ 24 -> p2 < p1).
Proof.
  assert (N : 0 <> @msgRoundChange iotaCodes) by (simpl; lia).
  assert (B : 134219 * 1000 + 1 * 10 + 3 < 2 ^ 64) by reflexivity.
  assert (L : viewLt (134219, 0) (134219, 1)) by (right; simpl; lia).
  split; [exact N|]. split; [exact B|]. split; [exact L|].
  apply (@toPriority_never_inverts iotaCodes 0 0 134219 0 134219 1 N N);
    [lia | lia | lia | exact B | exact L].
Defined.

(** The four kinds at view (5, 0): keys -5000, -5001, -5002, -5003. *)
Lemma toPriority_rank_order_witness :
  @MsgCodesRanked iotaCodes /\
  5 * 1000 + 0 * 10 + 3 < 2 ^ 24 /\
  exists p0 p1 p2 p3,
    @toPriority iotaCodes 3 (mkView 5 0) = Some p0 /\
    @toPriority iotaCodes 0 (mkView 5 0) = Some p1 /\
    @toPriority iotaCodes 2 (mkView 5 0) = Some p2 /\
    @toPriority iotaCodes 1 (mkView 5 0) = Some p3 /\
    p3 < p2 /\ p2 < p1 /\ p1 < p0.
Proof.
  assert (R : @MsgCodesRanked iotaCodes) by (constructor; simpl; lia).
  assert (B : 5 * 1000 + 0 * 10 + 3 < 2 ^ 24) by reflexivity.
  split; [exact R|]. split; [exact B|].
  apply (@toPriority_rank_order iotaCodes R 5 0); [lia | lia | exact B].
Defined.

(** The pass over [queue2'] at view (5, 0), and the pass after it. *)
Lemma processBacklog_twice_witness :
  (forall a q,
     backlogs (node StateAcceptRequest 5 0 {[ 2%N := queue2' ]}) !! a = Some q ->
     NoDup q.*2) /\
  (process0 (process0 (node StateAcceptRequest 5 0 {[ 2%N := queue2' ]})).1).2 = [].
Proof.
  assert (ND : forall a q,
     backlogs (node StateAcceptRequest 5 0 {[ 2%N := queue2' ]}) !! a = Some q ->
     NoDup q.*2).
  { intros a q L. simpl in L. apply lookup_singleton_Some in L as [_ <-].
    simpl. apply NoDup_cons. split.
    - rewrite list_elem_of_singleton. lia.
    - apply NoDup_singleton. }
  split; [exact ND|].
  exact (proj1 (@processBacklog_twice iotaCodes twoByteDecoder oldestFirst _ ND)).
Defined.

(** ** Head-of-line blocking *)

Section Blocking.
Context `{MsgCodes} `{Decoder} `{prque.TieBreak item}.

(** X16. Head-of-line blocking: when the queued entry of greatest priority
    is future, the pass pops it, pushes it back and stops. Nothing is sent,
    whatever else the queue holds, admissible or not, and the queue keeps all
    its entries. *)
Theorem head_of_line_blocking (c : core) (sender : Validator)
    (q : list (item * Z)) (e : item * Z) :
  e ∈ q ->
  (forall e', e' ∈ q -> e' = e \/ e'.2 < e.2) ->
  classify c e.1 = Some errFutureMessage ->
  sent (drain c sender q) = [] /\
  isFuture (drain c sender q) = true /\
  pops (drain c sender q) = [(e, Some errFutureMessage)] /\
  backlog (drain c sender q) ≡ₚ q.
Proof.
  intros Hin Top F.
  destruct (prque.Pop q) as [[[m prio] rest]|] eqn:P.
  2: { apply Pop_None in P. subst q. by apply elem_of_nil in Hin. }
  assert (E : (m, prio) = e).
  { pose proof (Pop_top _ _ _ _ P e Hin) as Le.
    destruct (Top (m, prio) (Pop_head _ _ _ _ P)) as [?|Lt]; [done|].
    simpl in Lt. lia. }
  subst e. simpl in F.
  rewrite (drain_future _ _ _ _ _ _ P F). simpl.
  split; [done|]. split; [done|]. split; [done|].
  by rewrite Push_perm, (Pop_perm _ _ _ _ P).
Qed.
End Blocking.

(** In state Preprepared at view (5, 0), the commit for (5, 0) has the
    greatest priority of the queue and is future: the prepare for (5, 0)
    queued with it, which [checkMessage] would admit, is not sent. *)
Lemma head_of_line_blocking_witness :
  (QBFT commit50, -5002) ∈ [(Legacy prepare50, -5003); (QBFT commit50, -5002)] /\
  (forall e', e' ∈ [(Legacy prepare50, -5003); (QBFT commit50, -5002)] ->
     e' = (QBFT commit50, -5002) \/ e'.2 < -5002) /\
  @classify iotaCodes twoByteDecoder (node StatePreprepared 5 0 ∅) (QBFT commit50)
    = Some errFutureMessage /\
  @classify iotaCodes twoByteDecoder (node StatePreprepared 5 0 ∅) (Legacy prepare50)
    = None /\
  sent (drain0 (node StatePreprepared 5 0 ∅) validator2
          [(Legacy prepare50, -5003); (QBFT commit50, -5002)]) = [].
Proof.
  assert (I : (QBFT commit50, -5002)
              ∈ [(Legacy prepare50, -5003); (QBFT commit50, -5002)]).
  { right. left. }
  assert (T : forall e', e' ∈ [(Legacy prepare50, -5003); (QBFT commit50, -5002)] ->
                e' = (QBFT commit50, -5002) \/ e'.2 < -5002).
  { intros e' Hin. apply elem_of_cons in Hin as [->|Hin]; [right; simpl; lia|].
    apply list_elem_of_singleton in Hin as ->. by left. }
  assert (F : @classify iotaCodes twoByteDecoder (node StatePreprepared 5 0 ∅)
                (QBFT commit50) = Some errFutureMessage) by reflexivity.
  split; [exact I|]. split; [exact T|]. split; [exact F|]. split; [reflexivity|].
  exact (proj1 (@head_of_line_blocking iotaCodes twoByteDecoder oldestFirst
                  (node StatePreprepared 5 0 ∅) validator2 _ _ I T F)).
Defined.
